(** * A shallow embedding of the [parallel] toolkit

    The development follows the sources of the repository:
    - [defer.h]             the scoped release helper [Defer];
    - [src/state.h]         the state engine ([Request], [StateChanged],
                            [BaseSwitcher]) and, in the same file, the guard
                            with its condition waits;
    - [src/thread_pool.cpp] the [TaskQueue] and the worker loop of
                            [SimpleThreadPool];
    - [src/timer.cpp]       the due-time [Queue] of the timer and the phase
                            machine of a [DelayedTask].

    Threads are not modelled as such.  Every operation of the sources runs
    under the lock of the cell it works on, so an operation is a function on
    the guarded value; the only place where the lock is given up in the middle
    of an operation is a condition wait, and there the other threads appear as
    an explicit list of interference steps, one per wake-up.  Where it
    matters which condition variable a step notifies, the wake-ups are
    computed from the steps and their notifications. *)

From stdpp Require Import base option list sorting gmap.
From Stdlib Require Import ZArith Lia.

(** Exceptions are opaque payloads ([std::exception_ptr]); thread identities
    are opaque tokens ([std::thread::id]). *)
Definition Exn := nat.
Definition ThreadId := nat.

(* ===================================================================== *)
(** * defer.h : [parallel::Defer]                                        *)
(* ===================================================================== *)

Module Defer.

(** What a call that may throw leaves behind: it either completes or it
    raises, and in both cases there is a state to go on from (the object
    exists until its destructor has run). *)
Inductive Completion (A : Type) : Type :=
| Normal (a : A)
| Raised (a : A).
Arguments Normal {A} a.
Arguments Raised {A} a.

Section WithCallback.

(** The template parameter.  Invoking a callback either returns or throws;
    [throws] tells which.  [moved_from c] is the valid but unspecified
    value that [std::move] leaves behind in the source object. *)
Context {Callback : Type}.
Variable throws : Callback -> bool.
Variable moved_from : Callback -> Callback.

Record Defer : Type := mkDefer { callback : Callback; called : bool }.

(** The observable effect of a [Defer]: the callbacks invoked, oldest
    first. *)
Definition Log : Type := list Callback.

(** [Defer(Callback callback)] *)
Definition make (c : Callback) : Defer :=
  {| callback := c; called := false |}.

(** [void pass()] *)
Definition pass (d : Defer) : Defer :=
  {| callback := callback d; called := true |}.

(** [bool passed() const] *)
Definition passed (d : Defer) : bool := called d.

(** [void run()]: the callback is invoked when [called] is not set; [pass]
    is reached only when the invocation returned. *)
Definition run (d : Defer) (log : Log) : Completion (Defer * Log) :=
  if called d then Normal (d, log)
  else
    let log' := log ++ [callback d] in
    if throws (callback d) then Raised (d, log')
    else Normal (pass d, log').

(** [Defer(Defer &&other)]: the new object first, the source after it. *)
Definition move_ctor (other : Defer) : Defer * Defer :=
  let new := {| callback := callback other; called := called other |} in
  let other' := {| callback := moved_from (callback other);
                   called := called other |} in
  (new, pass other').

(** [~Defer()]: runs the callback if it is still pending.  A destructor is
    [noexcept]; the flag of the result is set when the callback threw out
    of it ([std::terminate]). *)
Definition destroy (d : Defer) (log : Log) : Log * bool :=
  match run d log with
  | Normal (_, log') => (log', false)
  | Raised (_, log') => (log', true)
  end.

(** [Defer &operator=(Callback c)] *)
Definition assign_callback (d : Defer) (c : Callback) : Defer :=
  {| callback := c; called := false |}.

(** The operations a scope can apply to a [Defer] it owns.  The member
    [swap] and with it [operator=(Defer)] are not among them: inside the
    class the unqualified call [swap(callback, other.callback)] names the
    member itself, so neither of the two can be instantiated. *)
Inductive Op : Type :=
| OpRun
| OpPass
| OpAssignCallback (c : Callback).

(** How control leaves the statements of a scope: off the end, or by an
    exception (the object is still to be destroyed during unwinding). *)
Inductive ScopeExit : Type :=
| FallsOff (d : Defer) (log : Log)
| Unwinds (d : Defer) (log : Log).

(** The statements of a scope, in order. *)
Fixpoint exec (ops : list Op) (d : Defer) (log : Log) : ScopeExit :=
  match ops with
  | [] => FallsOff d log
  | OpRun :: ops' =>
      match run d log with
      | Normal (d', log') => exec ops' d' log'
      | Raised (d', log') => Unwinds d' log'
      end
  | OpPass :: ops' => exec ops' (pass d) log
  | OpAssignCallback c :: ops' => exec ops' (assign_callback d c) log
  end.

(** The whole lifetime of [Defer d(c); ops...] up to and including the
    destructor, which runs at the end of the scope or during unwinding. *)
Definition scope (c : Callback) (ops : list Op) : Log * bool :=
  match exec ops (make c) [] with
  | FallsOff d log | Unwinds d log => destroy d log
  end.

(** [Defer a(c); Defer b(std::move(a)); ops on b...]: both destructors run
    at the end, the one of [b] first. *)
Definition moved_scope (c : Callback) (ops : list Op) : Log * bool :=
  let '(b, a) := move_ctor (make c) in
  match exec ops b [] with
  | FallsOff b' log | Unwinds b' log =>
      match destroy b' log with
      | (log', true) => (log', true)
      | (log', false) => destroy a log'
      end
  end.

End WithCallback.

Arguments Defer Callback : clear implicits.
Arguments Op Callback : clear implicits.

End Defer.

(* ===================================================================== *)
(** * src/state.h, second half : the guard and its condition waits        *)
(* ===================================================================== *)

Module Guard.

(** What a call made under the lock of a cell comes to: it returns a value,
    an exception leaves it, or it never comes back from a wait. *)
Inductive Res (W A : Type) : Type :=
| Ret (a : A) (w : W)
| Throw (e : Exn) (w : W)
| Block.
Arguments Ret {W A} a w.
Arguments Throw {W A} e w.
Arguments Block {W A}.

(** [std::logic_error("cannot wait for signal")] *)
Definition logic_error : Exn := 0.

(** While a thread waits, the lock is released.  Each element of the list is
    what the other threads did to the guarded value between one release and
    the wake-up that follows it. *)
Definition Env (W : Type) : Type := list (W -> W).

(** [_cv.wait(lock, predicate)] on the installed lock, that is
    [while (!predicate()) wait(lock);].  [None]: the predicate never became
    true at a wake-up. *)
Fixpoint cv_wait {W : Type} (predicate : W -> bool) (env : Env W) (w : W)
  : option (W * Env W) :=
  if predicate w then Some (w, env)
  else match env with
       | [] => None
       | others :: env' => cv_wait predicate env' (others w)
       end.

(** The guarded value as the waiting thread finds it at its [k]-th
    wake-up. *)
Definition woken {W : Type} (k : nat) (env : Env W) (w : W) : W :=
  foldl (fun x others => others x) w (take k env).

(** A step of another thread while this one waits: what it does to the
    guarded value, and the condition variable it notifies when it has done
    so, if it notifies one.  A condition variable is named by the address
    of the object it is a member of. *)
Record Step (W : Type) : Type :=
  mkStep { effect : W -> W; notifies : W -> option nat }.
Arguments mkStep {W} effect notifies.
Arguments effect {W} s w.
Arguments notifies {W} s w.

(** The wake-ups that the steps of the other threads give to a thread that
    waits on the condition variable of the object at [cv]: a step that
    notifies this condition variable wakes the thread, and no other step
    does (a spurious wake-up apart).  [w] is the guarded value before the
    steps, and [since] is what was done to it since the last wake-up. *)
Fixpoint wake_ups_since {W : Type} (cv : nat) (steps : list (Step W))
    (since : W -> W) (w : W) : Env W :=
  match steps with
  | [] => []
  | s :: steps' =>
      let w' := effect s w in
      let since' := fun x => effect s (since x) in
      if bool_decide (notifies s w' = Some cv)
      then since' :: wake_ups_since cv steps' (fun x => x) w'
      else wake_ups_since cv steps' since' w'
  end.

Definition wake_ups {W : Type} (cv : nat) (steps : list (Step W)) (w : W)
  : Env W :=
  wake_ups_since cv steps (fun x => x) w.

(** [EnableConditionNotification::waitForNotification(Predicate)].
    [lock] tells whether [_lock] is installed, which it is inside the
    non-const [lock] of a notifiable guard. *)
Definition waitForNotification {W : Type} (lock : bool)
    (predicate : W -> bool) (env : Env W) (w : W) : Res (W * Env W) unit :=
  if negb lock then Throw logic_error (w, env)
  else match cv_wait predicate env w with
       | Some r => Ret tt r
       | None => Block
       end.

End Guard.

(* ===================================================================== *)
(** * src/state.h, first half : [parallel::state]                         *)
(* ===================================================================== *)

Module State.
Import Guard.

Section Engine.

(** [Ptr] is the address of a state object.  The pointer kept in the cell
    is never null: [State]'s only constructor fills it with [make_shared]
    and [BaseSwitcher] replaces it by a non-null pointer only.  [X] is the
    rest of what a call can reach: the state objects themselves and the
    other threads. *)
Context {Ptr : Type} `{EqDecision Ptr} {X : Type}.

(** A [std::shared_ptr<State>] that may be null. *)
Definition SharedPtr : Type := option Ptr.

(** [struct Request]: [result] and [newState]. *)
Record Request : Type := mkRequest { result : bool; newState : SharedPtr }.

(** [Request(bool result = false)] *)
Definition Request_of_bool (result : bool) : Request :=
  {| result := result; newState := None |}.

(** [Request(std::shared_ptr<State> newState)]: [result] is the pointer
    converted to [bool]. *)
Definition Request_of_ptr (newState : SharedPtr) : Request :=
  {| result := bool_decide (is_Some newState); newState := newState |}.

(** The guarded [std::shared_ptr<State>] together with its surroundings. *)
Record World : Type := mkWorld { state : Ptr; rest : X }.

(** [StateChanged::operator()]: [_shared != _persistent], where [_shared]
    refers to the pointer in the cell. *)
Definition StateChanged (persistent : Ptr) (w : World) : bool :=
  bool_decide (state w ≠ persistent).

(** [BaseSwitcher::operator()(state, call)] *)
Definition BaseSwitcher (call : Ptr -> World -> Res World Request)
    (w : World) : Res World bool :=
  let persistent := state w in
  match call persistent w with
  | Ret req w' =>
      if bool_decide (state w' ≠ persistent) then Ret false w'
      else
        match result req, newState req with
        | true, Some p => Ret (result req) {| state := p; rest := rest w' |}
        | _, _ => Ret (result req) w'
        end
  | Throw e w' => Throw e w'
  | Block => Block
  end.

(** [Switcher<member>] for [Request (State::*member)(Args...)]: the member
    is called on the object [persistent] points to. *)
Definition Switcher (member : Ptr -> World -> Res World Request)
  : World -> Res World bool :=
  BaseSwitcher (fun persistent => member persistent).

(** [Switcher<member>] for
    [Request (State::*member)(StateChanged<State>, Args...)]. *)
Definition SwitcherChanged
    (member : Ptr -> (World -> bool) -> World -> Res World Request)
  : World -> Res World bool :=
  BaseSwitcher (fun persistent => member persistent (StateChanged persistent)).

(** [State::call<member>] when [Switcher<member>] is not valid (the members
    that return [bool]): the member is called on the current object under
    the lock, nothing is swapped. *)
Definition call_plain (member : Ptr -> World -> Res World bool)
  : World -> Res World bool :=
  fun w => member (state w) w.

End Engine.

Arguments Request Ptr : clear implicits.
Arguments World Ptr X : clear implicits.

End State.

(* ===================================================================== *)
(** * src/thread_pool.cpp : [TaskQueue] and [SimpleThreadPool]            *)
(* ===================================================================== *)

Module ThreadPool.
Import Guard.

(** What invoking a callable does as far as its caller can tell. *)
Inductive Body : Type :=
| Returns
| Throws (e : Exn).

(** A non-empty [std::function<void()>]; [name] tells callables apart. *)
Record Callable : Type := mkCallable { name : nat; body : Body }.

(** [ThreadPool::Task]; [None] is the empty [std::function]. *)
Definition Task : Type := option Callable.

(** [ThreadPool::ExceptionHandler]; [None] is the empty handler.  A handler
    is given the exception and returns or throws in its turn. *)
Definition ExceptionHandler : Type := option (Exn -> Body).

(** Calls on the condition variable of the queue. *)
Inductive Signal : Type := NotifyOne | NotifyAll.

Record TaskQueue : Type := mkTaskQueue { _quit : bool; _queue : list Task }.

(** [TaskQueue()] *)
Definition TaskQueue_new : TaskQueue := {| _quit := false; _queue := [] |}.

(** [bool addTask(Task task)]: the result, the signals sent, the queue. *)
Definition addTask (task : Task) (q : TaskQueue)
  : bool * list Signal * TaskQueue :=
  if _quit q || negb (bool_decide (is_Some task)) then (false, [], q)
  else (true, [NotifyOne],
        {| _quit := _quit q; _queue := _queue q ++ [task] |}).

(** [void stop()] *)
Definition stop (q : TaskQueue) : list Signal * TaskQueue :=
  ([NotifyAll], {| _quit := true; _queue := _queue q |}).

(** The predicate [getTask] waits for: [_quit || !_queue.empty()]. *)
Definition quit_or_nonempty (q : TaskQueue) : bool :=
  _quit q || negb (bool_decide (_queue q = [])).

(** [Task getTask()].  [fuel] bounds the iterations of [while (!_quit)];
    the outer [None] means the bound was reached.  The call is made through
    [_queue.lock()], so the lock is installed for the wait. *)
Fixpoint getTask (fuel : nat) (env : Env TaskQueue) (q : TaskQueue)
  : option (Res (TaskQueue * Env TaskQueue) Task) :=
  match fuel with
  | O => None
  | S fuel' =>
      if _quit q then Some (Ret None (q, env))
      else
        match waitForNotification true quit_or_nonempty env q with
        | Ret _ (q', env') =>
            match _queue q' with
            | task :: rest =>
                Some (Ret task ({| _quit := _quit q'; _queue := rest |}, env'))
            | [] => getTask fuel' env' q'
            end
        | Throw e s => Some (Throw e s)
        | Block => Some Block
        end
  end.

(** The operations other parts of the program apply to the queue. *)
Inductive QueueOp : Type :=
| OpAddTask (task : Task)
| OpStop
| OpGetTask (fuel : nat) (env : Env TaskQueue).

Definition apply_op (q : TaskQueue) (op : QueueOp) : TaskQueue :=
  match op with
  | OpAddTask task => snd (addTask task q)
  | OpStop => snd (stop q)
  | OpGetTask fuel env =>
      match getTask fuel env q with
      | Some (Ret _ (q', _)) => q'
      | _ => q
      end
  end.

(** [SimpleThreadPool]: the handler and the guarded queue.  The worker
    threads themselves are the callers of [run]. *)
Record SimpleThreadPool : Type :=
  mkPool { _handler : ExceptionHandler; _tasks : TaskQueue }.

(** [bool addTask(Task task) override] *)
Definition pool_addTask (task : Task) (p : SimpleThreadPool)
  : bool * SimpleThreadPool :=
  let '(r, _, q') := addTask task (_tasks p) in
  (r, {| _handler := _handler p; _tasks := q' |}).

(** [~SimpleThreadPool()], up to the joins: [_queue.lock()->stop()]. *)
Definition pool_stop (p : SimpleThreadPool) : SimpleThreadPool :=
  {| _handler := _handler p; _tasks := snd (stop (_tasks p)) |}.

(** What a worker has done so far: the callables it invoked and the
    exceptions it handed to the handler, oldest first. *)
Record Trace : Type :=
  mkTrace { invoked : list Callable; forwarded : list Exn }.

Definition Trace_empty : Trace := {| invoked := []; forwarded := [] |}.

(** How [run] ends. *)
Inductive WorkerExit : Type :=
| Finished            (* [getTask] returned the empty task *)
| Terminated          (* [std::terminate] *)
| Waits.              (* never woken up with something to do *)

(** The body of the loop of [run]: [try { task(); } catch (...) { ... }].
    [inl]: the loop goes on; [inr]: the process is terminated.  [run] is
    [noexcept], so a handler that throws terminates as well. *)
Definition run_task (handler : ExceptionHandler) (task : Callable)
    (tr : Trace) : Trace + Trace :=
  let tr1 := {| invoked := invoked tr ++ [task]; forwarded := forwarded tr |} in
  match body task with
  | Returns => inl tr1
  | Throws e =>
      match handler with
      | None => inr tr1
      | Some h =>
          let tr2 := {| invoked := invoked tr1;
                        forwarded := forwarded tr1 ++ [e] |} in
          match h e with
          | Returns => inl tr2
          | Throws _ => inr tr2
          end
      end
  end.

(** [void run() noexcept].  [fuel] bounds the number of tasks taken and is
    handed to each [getTask] as well. *)
Fixpoint run (fuel : nat) (handler : ExceptionHandler)
    (env : Env TaskQueue) (q : TaskQueue) (tr : Trace)
  : option (WorkerExit * Trace * TaskQueue) :=
  match fuel with
  | O => None
  | S fuel' =>
      match getTask fuel env q with
      | None => None
      | Some Block => Some (Waits, tr, q)
      | Some (Throw _ (q', _)) => Some (Terminated, tr, q')
      | Some (Ret None (q', _)) => Some (Finished, tr, q')
      | Some (Ret (Some task) (q', env')) =>
          match run_task handler task tr with
          | inl tr' => run fuel' handler env' q' tr'
          | inr tr' => Some (Terminated, tr', q')
          end
      end
  end.

End ThreadPool.

(* ===================================================================== *)
(** * src/timer.cpp : [Timer::Queue]                                      *)
(* ===================================================================== *)

Module TimerQueue.
Import Guard.

(** [std::chrono::steady_clock::time_point], in ticks of the clock, which
    are nanoseconds held in a signed 64-bit count.  The clock is taken never
    to read [TimePoint::max()]. *)
Definition TimePoint : Type := Z.

(** The value a signed 64-bit count holds after an addition or a
    multiplication whose exact result is [z]: the sources compute on
    [int64_t] without a check, and the result wraps around. *)
Definition wrap64 (z : Z) : Z := ((z + 2 ^ 63) mod 2 ^ 64 - 2 ^ 63)%Z.

(** The exact result is representable. *)
Definition fits64 (z : Z) : Prop := (- 2 ^ 63 <= z < 2 ^ 63)%Z.

(** The conversion of a [std::chrono::milliseconds] to ticks of the clock,
    which [time_point + duration] makes before it adds: the count is
    multiplied by 1000000. *)
Definition ticks_of_ms (ms : Z) : Z := wrap64 (ms * 1000000).

(** A [std::shared_ptr<DelayedTask>]: the address of the task. *)
Definition TaskPtr : Type := nat.

Inductive Signal : Type := NotifyOne | NotifyAll.

(** An entry of the [std::multimap]. *)
Definition Entry : Type := (TimePoint * TaskPtr)%type.

Record Queue : Type := mkQueue {
  _quit : bool;
  _maxQueueSize : nat;
  _queue : list Entry;                (* std::multimap, in iteration order *)
  _mapping : gmap TaskPtr TimePoint   (* std::unordered_map *)
}.

(** [Queue(unsigned maxQueueSize)] *)
Definition Queue_new (maxQueueSize : nat) : Queue :=
  {| _quit := false; _maxQueueSize := maxQueueSize;
     _queue := []; _mapping := ∅ |}.

(** [std::multimap::emplace]: the new element goes to the upper bound of its
    key, behind the elements of the same key.  The first component is the
    position of the new element. *)
Fixpoint emplace (k : TimePoint) (v : TaskPtr) (l : list Entry)
  : nat * list Entry :=
  match l with
  | [] => (0, [(k, v)])
  | e :: l' =>
      if (e.1 <=? k)%Z
      then let '(i, r) := emplace k v l' in (S i, e :: r)
      else (0, (k, v) :: l)
  end.

(** The loop of [rescheduleTask] over [_queue.equal_range(k)]: the first
    element of the range whose value is [task] is erased. *)
Fixpoint erase_in_range (k : TimePoint) (task : TaskPtr) (l : list Entry)
  : list Entry :=
  match l with
  | [] => []
  | e :: l' =>
      if (e.1 <? k)%Z then e :: erase_in_range k task l'
      else if (e.1 =? k)%Z then
             if bool_decide (e.2 = task) then l'
             else e :: erase_in_range k task l'
           else l
  end.

Section WithDelay.

(** The [_delay] member of the task at an address, a count of
    milliseconds.  It is [const], set by the constructor of the task. *)
Variable delay : TaskPtr -> Z.

(** [DelayedTask::dueTime()], that is
    [std::chrono::steady_clock::now() + _delay]; [now] is what the clock
    reads at the call. *)
Definition dueTime (now : TimePoint) (task : TaskPtr) : TimePoint :=
  wrap64 (now + ticks_of_ms (delay task)).

(** [void placeTask(TimePoint dueTime, std::shared_ptr<DelayedTask> task)] *)
Definition placeTask (due : TimePoint) (task : TaskPtr) (q : Queue)
  : list Signal * Queue :=
  let '(position, queue') := emplace due task (_queue q) in
  (if bool_decide (position = 0) then [NotifyOne] else [],
   {| _quit := _quit q; _maxQueueSize := _maxQueueSize q;
      _queue := queue'; _mapping := _mapping q |}).

(** [bool addTask(std::shared_ptr<DelayedTask> task)] *)
Definition addTask (now : TimePoint) (task : TaskPtr) (q : Queue)
  : bool * list Signal * Queue :=
  if _quit q || (_maxQueueSize q <=? length (_queue q)) then (false, [], q)
  else
    let due := dueTime now task in
    match _mapping q !! task with
    | Some _ => (false, [], q)
    | None =>
        let q1 := {| _quit := _quit q; _maxQueueSize := _maxQueueSize q;
                     _queue := _queue q;
                     _mapping := <[task := due]> (_mapping q) |} in
        let '(signals, q2) := placeTask due task q1 in
        (true, signals, q2)
    end.

(** [bool rescheduleTask(std::shared_ptr<DelayedTask> task)] *)
Definition rescheduleTask (now : TimePoint) (task : TaskPtr) (q : Queue)
  : bool * list Signal * Queue :=
  if _quit q then (false, [], q)
  else
    match _mapping q !! task with
    | None => (false, [], q)
    | Some old =>
        let queue1 := erase_in_range old task (_queue q) in
        let due := dueTime now task in
        let q1 := {| _quit := _quit q; _maxQueueSize := _maxQueueSize q;
                     _queue := queue1;
                     _mapping := <[task := due]> (_mapping q) |} in
        let '(signals, q2) := placeTask due task q1 in
        (true, signals, q2)
    end.

End WithDelay.

(** [void stop()] *)
Definition stop (q : Queue) : list Signal * Queue :=
  ([NotifyOne],
   {| _quit := true; _maxQueueSize := _maxQueueSize q;
      _queue := _queue q; _mapping := _mapping q |}).

(** [void cancelAll()]: the tasks [cancel] is called on, in order; the queue
    itself is not touched. *)
Definition cancelAll (q : Queue) : list TaskPtr * Queue :=
  ((_queue q).*2, q).

(** [std::optional<TimePoint> nearestTask() const] *)
Definition nearestTask (q : Queue) : option TimePoint :=
  match _queue q with
  | [] => None
  | e :: _ => Some e.1
  end.

(** [bool taskIsReady()]: [nearestTask().value_or(TimePoint::max()) <= now]. *)
Definition taskIsReady (now : TimePoint) (q : Queue) : bool :=
  match nearestTask q with
  | None => false
  | Some point => (point <=? now)%Z
  end.

(** The dispatcher sees the queue and the clock; both move while it waits. *)
Definition Watched : Type := (Queue * TimePoint)%type.

(** [_cv.wait_until(lock, timePoint, predicate)]: as [cv_wait], but a
    wake-up at or after [timePoint] ends the wait whatever the predicate
    says. *)
Fixpoint cv_wait_until (predicate : Watched -> bool) (timePoint : TimePoint)
    (env : Env Watched) (w : Watched) : option (Watched * Env Watched) :=
  if predicate w then Some (w, env)
  else match env with
       | [] => None
       | others :: env' =>
           let w' := others w in
           if (timePoint <=? w'.2)%Z then Some (w', env')
           else cv_wait_until predicate timePoint env' w'
       end.

(** [std::shared_ptr<DelayedTask> getTask()].  [fuel] bounds the iterations
    of [while (!_quit)]; the outer [None] means the bound was reached, or
    the list of wake-ups ended inside a timed wait. *)
Fixpoint getTask (fuel : nat) (env : Env Watched) (w : Watched)
  : option (Res (Watched * Env Watched) (option TaskPtr)) :=
  match fuel with
  | O => None
  | S fuel' =>
      let '(q, now) := w in
      if _quit q then Some (Ret None (w, env))
      else if taskIsReady now q then
        match _queue q with
        | e :: rest =>
            let q' := {| _quit := _quit q; _maxQueueSize := _maxQueueSize q;
                         _queue := rest;
                         _mapping := delete e.2 (_mapping q) |} in
            Some (Ret (Some e.2) ((q', now), env))
        | [] => None
        end
      else
        match nearestTask q with
        | Some point =>
            match cv_wait_until
                    (fun w => _quit w.1 || taskIsReady w.2 w.1) point env w with
            | Some (w', env') => getTask fuel' env' w'
            | None => None
            end
        | None =>
            match waitForNotification true
                    (fun w : Watched =>
                       _quit w.1 || bool_decide (is_Some (nearestTask w.1)))
                    env w with
            | Ret _ (w', env') => getTask fuel' env' w'
            | Throw e s => Some (Throw e s)
            | Block => Some Block
            end
        end
  end.

(** ** The invariants of the queue *)

(** The multimap keeps its entries in the order of their keys. *)
Definition ordered (q : Queue) : Prop :=
  StronglySorted Z.le ((_queue q).*1).

(** Both maps hold the same pairs of task and due time. *)
Definition agree (q : Queue) : Prop :=
  map_to_list (_mapping q) ≡ₚ prod_swap <$> _queue q.

Definition bounded (q : Queue) : Prop :=
  length (_queue q) ≤ _maxQueueSize q.

Definition invariant (q : Queue) : Prop :=
  ordered q ∧ agree q ∧ bounded q.

(** What the other threads do to the queue while the dispatcher waits is
    made of operations of the queue, so it keeps the invariants. *)
Definition keeps_invariant (others : Watched -> Watched) : Prop :=
  ∀ w, invariant w.1 -> invariant (others w).1.

End TimerQueue.

(* ===================================================================== *)
(** * src/timer.cpp : [Timer::DelayedTask]                                *)
(* ===================================================================== *)

Module DelayedTask.
Import Guard State.

(** The state objects: [StateWaiting], [StateRunning] with its two members,
    [StateDone], [StateException] with its member, [StateCancelled]. *)
Inductive Phase : Type :=
| StateWaiting
| StateRunning (_executor : ThreadId) (_restartWanted : bool)
| StateDone
| StateException (_ptr : Exn)
| StateCancelled.

(** The state objects live on the heap; [make_shared] takes the next unused
    address.  An object stays where it is for as long as a call that
    compares pointers to it is under way, since the call holds [persistent]. *)
Record Store : Type := mkStore { objects : gmap nat Phase; brk : nat }.

(** The cell [_state] of a task and the objects around it. *)
Definition World : Type := State.World nat Store.
Definition Request : Type := State.Request nat.

(** [DelayedTask(delay, task, timer)]: [_state(Init<StateWaiting>(), *this)] *)
Definition DelayedTask_new : World :=
  {| state := 0; rest := {| objects := {[ 0 := StateWaiting ]}; brk := 1 |} |}.

(** The object the cell points to. *)
Definition phase (w : World) : option Phase :=
  objects (rest w) !! state w.

(** The object in the cell has an address that was handed out: it lies
    below the next unused one. *)
Definition allocated (w : World) : Prop := state w < brk (rest w).

(** [std::make_shared<S>(...)] *)
Definition make_shared (ph : Phase) (w : World) : nat * World :=
  let a := brk (rest w) in
  (a, {| state := state w;
         rest := {| objects := <[a := ph]> (objects (rest w));
                    brk := S a |} |}).

(** [return std::make_shared<S>(...);] from a member that returns a
    [Request]. *)
Definition return_new (ph : Phase) (w : World) : Res World Request :=
  let '(a, w') := make_shared ph w in
  Ret (Request_of_ptr (Some a)) w'.

(** [return {};] and [return true;] *)
Definition return_default (w : World) : Res World Request :=
  Ret (Request_of_bool false) w.
Definition return_true (w : World) : Res World Request :=
  Ret (Request_of_bool true) w.

(** Virtual dispatch on the object at address [p].  The pointers the members
    are called through always refer to an object; the model gives [Block]
    where there is none. *)
Definition dispatch {A : Type} (p : nat) (w : World)
    (member : Phase -> Res World A) : Res World A :=
  match objects (rest w) !! p with
  | Some ph => member ph
  | None => Block
  end.

(** [DelayedTask::start] and [DelayedTask::reschedule] call back into the
    timer, which locks its queue and asks the task for its phase.  What such
    a call comes to is given from outside: [Some b] when it returns [b],
    [None] when it does not return. *)
Record TimerCalls : Type :=
  mkTimerCalls { start : option bool; reschedule : option bool }.

Section Members.

(** The calling thread, [std::this_thread::get_id()]. *)
Variable self : ThreadId.
Variable timer : TimerCalls.

(** [Request run()] *)
Definition run_ (p : nat) (w : World) : Res World Request :=
  dispatch p w (fun ph =>
    match ph with
    | StateWaiting => return_new (StateRunning self false) w
    | _ => return_default w
    end).

(** [Request cancel(state::StateChanged<State>)]; [env] is what the other
    threads do while [StateRunning::cancel] waits. *)
Definition cancel_ (env : Env World) (p : nat) (changed : World -> bool)
    (w : World) : Res World Request :=
  dispatch p w (fun ph =>
    match ph with
    | StateWaiting => return_new StateCancelled w
    | StateRunning _executor _ =>
        if bool_decide (_executor = self) then return_new StateCancelled w
        else
          match waitForNotification true changed env w with
          | Ret _ (w', _) => return_default w'
          | Throw e (w', _) => Throw e w'
          | Block => Block
          end
    | StateDone => return_new StateCancelled w
    | StateException _ptr => Throw _ptr w
    | StateCancelled => return_default w
    end).

(** [Request done()] *)
Definition done_ (p : nat) (w : World) : Res World Request :=
  dispatch p w (fun ph =>
    match ph with
    | StateRunning _ _restartWanted =>
        if _restartWanted then
          match start timer with
          | Some true => return_new StateWaiting w
          | Some false => return_default w
          | None => Block
          end
        else return_new StateDone w
    | _ => return_default w
    end).

(** [Request exception(std::exception_ptr)] *)
Definition exception_ (ptr : Exn) (p : nat) (w : World)
  : Res World Request :=
  dispatch p w (fun ph =>
    match ph with
    | StateRunning _ _ => return_new (StateException ptr) w
    | _ => return_default w
    end).

(** [Request restart()]; [StateRunning::restart] writes to the object it
    is called on. *)
Definition restart_ (p : nat) (w : World) : Res World Request :=
  dispatch p w (fun ph =>
    match ph with
    | StateWaiting =>
        match reschedule timer with
        | Some _ => return_true w
        | None => Block
        end
    | StateRunning _executor _ =>
        return_true
          {| state := state w;
             rest := {| objects := <[p := StateRunning _executor true]>
                                     (objects (rest w));
                        brk := brk (rest w) |} |}
    | StateException _ptr => Throw _ptr w
    | _ => return_default w
    end).

(** [bool isWaiting() const] and the other three. *)
Definition isWaiting_ (p : nat) (w : World) : Res World bool :=
  dispatch p w (fun ph =>
    match ph with StateWaiting => Ret true w | _ => Ret false w end).

Definition isDone_ (p : nat) (w : World) : Res World bool :=
  dispatch p w (fun ph =>
    match ph with
    | StateDone => Ret true w
    | StateException _ptr => Throw _ptr w
    | _ => Ret false w
    end).

Definition isRunning_ (p : nat) (w : World) : Res World bool :=
  dispatch p w (fun ph =>
    match ph with StateRunning _ _ => Ret true w | _ => Ret false w end).

Definition isCancelled_ (p : nat) (w : World) : Res World bool :=
  dispatch p w (fun ph =>
    match ph with StateCancelled => Ret true w | _ => Ret false w end).

(** The public members of [DelayedTask]: [_state.call<&State::...>()]. *)
Definition cancel (env : Env World) : World -> Res World bool :=
  SwitcherChanged (cancel_ env).
Definition restart : World -> Res World bool := Switcher restart_.
Definition isWaiting : World -> Res World bool := call_plain isWaiting_.
Definition isDone : World -> Res World bool := call_plain isDone_.
Definition isRunning : World -> Res World bool := call_plain isRunning_.
Definition isCancelled : World -> Res World bool := call_plain isCancelled_.

(** What the body [_task] does to its own task before it returns or
    throws: it may cancel it, and it (or another thread, in the meantime)
    may ask for a restart. *)
Inductive BodyAction : Type := BodyCancel | BodyRestart.

Record TaskBody : Type :=
  mkTaskBody { actions : list BodyAction; outcome : ThreadPool.Body }.

(** The calls made from inside the body; an exception of one of them
    leaves the body. *)
Fixpoint body_actions (acts : list BodyAction) (w : World)
  : Res World unit :=
  match acts with
  | [] => Ret tt w
  | a :: acts' =>
      match (match a with
             | BodyCancel => cancel [] w
             | BodyRestart => restart w
             end) with
      | Ret _ w' => body_actions acts' w'
      | Throw e w' => Throw e w'
      | Block => Block
      end
  end.

(** [_task()] *)
Definition invoke (b : TaskBody) (w : World) : Res World unit :=
  match body_actions (actions b) w with
  | Ret _ w' =>
      match outcome b with
      | ThreadPool.Returns => Ret tt w'
      | ThreadPool.Throws e => Throw e w'
      end
  | r => r
  end.

(** [void run()], called on the worker thread [self]. *)
Definition run (b : TaskBody) (w : World) : Res World unit :=
  match Switcher run_ w with
  | Ret true w1 =>
      let caught (e : Exn) (w' : World) :=
        match Switcher (exception_ e) w' with
        | Ret _ w'' => Ret tt w''
        | Throw e' w'' => Throw e' w''
        | Block => Block
        end in
      match invoke b w1 with
      | Ret _ w2 =>
          match Switcher done_ w2 with
          | Ret _ w3 => Ret tt w3
          | Throw e w3 => caught e w3
          | Block => Block
          end
      | Throw e w2 => caught e w2
      | Block => Block
      end
  | Ret false w1 => Ret tt w1
  | Throw e w1 => Throw e w1
  | Block => Block
  end.

End Members.

(** [_state.notifyAll()] and [_state.notifyOne()]: the guard notifies
    [getSignalable()], which is the state object the cell points to when
    the call is made.  A step notifies as the sources do when it notifies
    nothing or that object. *)
Definition notifies_current (s : Step World) : Prop :=
  ∀ w, notifies s w = None ∨ notifies s w = Some (state w).

(** What the executor does after the body, as a step seen by a thread that
    waits: the call of [done], or of [exception] when the body threw, and
    then [_state.notifyAll()]. *)
Definition finish (timer : TimerCalls) (outcome : ThreadPool.Body)
  : Step World :=
  {| effect := fun w =>
       match (match outcome with
              | ThreadPool.Returns => Switcher (done_ timer) w
              | ThreadPool.Throws e => Switcher (exception_ e) w
              end) with
       | Ret _ w' | Throw _ w' => w'
       | Block => w
       end;
     notifies := fun w' => Some (state w') |}.

(** What the holder of a handle can ask of the task. *)
Inductive Query : Type :=
| QCancel (env : Env World)
| QRestart
| QIsWaiting
| QIsDone
| QIsRunning
| QIsCancelled.

Definition ask (self : ThreadId) (timer : TimerCalls) (q : Query)
  : World -> Res World bool :=
  match q with
  | QCancel env => cancel self env
  | QRestart => restart timer
  | QIsWaiting => isWaiting
  | QIsDone => isDone
  | QIsRunning => isRunning
  | QIsCancelled => isCancelled
  end.

(** The world after a series of queries, each by some thread; a query that
    does not come back leaves the world as it found it. *)
Fixpoint after (qs : list (ThreadId * Query)) (timer : TimerCalls)
    (w : World) : World :=
  match qs with
  | [] => w
  | (tid, q) :: qs' =>
      match ask tid timer q w with
      | Ret _ w' | Throw _ w' => after qs' timer w'
      | Block => after qs' timer w
      end
  end.

End DelayedTask.

(* ===================================================================== *)
(** * The test of the state engine : [Base], [Child], [BadChild]          *)
(* ===================================================================== *)

Module StateTest.
Import Guard State.

(** The two classes derived from [Base]. *)
Inductive Base : Type := Child | BadChild.

Record Heap : Type := mkHeap { objects : gmap nat Base; brk : nat }.

Definition World : Type := State.World nat Heap.

(** [virtual bool foo() const]: [true] in [Base], [false] in [Child]. *)
Definition foo (p : nat) (w : World) : Res World bool :=
  match objects (rest w) !! p with
  | Some Child => Ret false w
  | Some BadChild => Ret true w
  | None => Block
  end.

(** [Request oops()]: a [Child] makes a [BadChild] and the other way
    round. *)
Definition oops (p : nat) (w : World) : Res World (Request nat) :=
  match objects (rest w) !! p with
  | Some this =>
      let made := match this with Child => BadChild | BadChild => Child end in
      let a := brk (rest w) in
      Ret (Request_of_ptr (Some a))
          {| state := state w;
             rest := {| objects := <[a := made]> (objects (rest w));
                        brk := S a |} |}
  | None => Block
  end.

(** [parallel::state::State<Base> graal{parallel::state::Init<Child>()}] *)
Definition graal : World :=
  {| state := 0; rest := {| objects := {[ 0 := Child ]}; brk := 1 |} |}.

End StateTest.

(* ===================================================================== *)
(** * src/state.h, second half : the lock slot of a notifiable object     *)
(* ===================================================================== *)

Module GuardLock.
Import Guard.

(** A [SignalableLock *]: the address of a lock object. *)
Definition LockPtr : Type := nat.

Section WithObject.

(** What the guarded class adds to [EnableConditionNotification]. *)
Context {T : Type}.

(** A notifiable object: the [_lock] of its base class and its own
    members.  The mutex and the condition variable are not part of it. *)
Record Notifiable : Type := mkNotifiable { _lock : option LockPtr; members : T }.

(** [EnableConditionNotification() : _lock(nullptr)] *)
Definition Notifiable_new (x : T) : Notifiable :=
  {| _lock := None; members := x |}.

(** [void setSignalableLock(SignalableLock *lock)] *)
Definition setSignalableLock (lock : option LockPtr) (o : Notifiable)
  : Notifiable :=
  {| _lock := lock; members := members o |}.

(** [Guard::SignalableLock]: where it lives, and whether its [_object]
    points to the object of the guard or is null. *)
Record SignalableLock : Type := mkLock { this : LockPtr; _object : bool }.

(** [SignalableLock(Mutex &mutex, EnableConditionNotification &object)] *)
Definition SignalableLock_on (this : LockPtr) (o : Notifiable)
  : SignalableLock * Notifiable :=
  ({| this := this; _object := true |}, setSignalableLock (Some this) o).

(** [SignalableLock(Mutex &mutex)] *)
Definition SignalableLock_plain (this : LockPtr) : SignalableLock :=
  {| this := this; _object := false |}.

(** [SignalableLock(SignalableLock &&other)]: the new lock, what is left of
    [other], and the object. *)
Definition SignalableLock_move (here : LockPtr) (other : SignalableLock)
    (o : Notifiable) : SignalableLock * SignalableLock * Notifiable :=
  ({| this := here; _object := _object other |},
   {| this := this other; _object := false |},
   if _object other then setSignalableLock (Some here) o else o).

(** [~SignalableLock()] *)
Definition SignalableLock_destroy (l : SignalableLock) (o : Notifiable)
  : Notifiable :=
  if _object l then setSignalableLock None o else o.

(** [auto lock(F f)]: the lock lives at [this] for the time of the call, and
    dies on the way out, also when [f] throws. *)
Definition lock {A : Type} (this : LockPtr)
    (f : Notifiable -> Res Notifiable A) (o : Notifiable) : Res Notifiable A :=
  let '(l, o1) := SignalableLock_on this o in
  match f o1 with
  | Ret a o2 => Ret a (SignalableLock_destroy l o2)
  | Throw e o2 => Throw e (SignalableLock_destroy l o2)
  | Block => Block
  end.

(** [auto lock(F f) const] and [constLock(F f)]: the lock is not told about
    the object. *)
Definition constLock {A : Type} (this : LockPtr)
    (f : Notifiable -> Res Notifiable A) (o : Notifiable) : Res Notifiable A :=
  let l := SignalableLock_plain this in
  match f o with
  | Ret a o2 => Ret a (SignalableLock_destroy l o2)
  | Throw e o2 => Throw e (SignalableLock_destroy l o2)
  | Block => Block
  end.

(** [Proxy<Object, SignalableLock> lock()]: the temporary lock at [tmp] is
    moved into the member of the proxy at [this] and then dies. *)
Definition lock_proxy (tmp this : LockPtr) (o : Notifiable)
  : SignalableLock * Notifiable :=
  let '(t, o1) := SignalableLock_on tmp o in
  let '(l, t', o2) := SignalableLock_move this t o1 in
  (l, SignalableLock_destroy t' o2).

(** [~Proxy()] *)
Definition Proxy_destroy (l : SignalableLock) (o : Notifiable) : Notifiable :=
  SignalableLock_destroy l o.

(** [lockAll(f, guard1, guard2)]: a [std::scoped_lock] on the two mutexes
    and a call of [f] on the two objects; no [SignalableLock] is made. *)
Definition lockAll {A : Type}
    (f : Notifiable -> Notifiable -> Res (Notifiable * Notifiable) A)
    (o1 o2 : Notifiable) : Res (Notifiable * Notifiable) A :=
  f o1 o2.

(** The effect of the callbacks a [Defer] has invoked. *)
Definition invoke_all (log : list (Notifiable -> Notifiable))
    (o : Notifiable) : Notifiable :=
  foldl (fun x callback => callback x) o log.

(** [waitForNotification(Predicate predicate)] with its lock slot:
    [makeDefer] keeps the lock found at entry and puts it back when the
    scope is left, after the wait. *)
Definition waitForNotification (predicate : Notifiable -> bool)
    (env : Env Notifiable) (o : Notifiable)
  : Res (Notifiable * Env Notifiable) unit :=
  match _lock o with
  | None => Throw logic_error (o, env)
  | Some lock =>
      let defer := Defer.make (setSignalableLock (Some lock)) in
      match cv_wait predicate env o with
      | Some (o', env') =>
          let '(log, _) := Defer.destroy (fun _ => false) defer [] in
          Ret tt (invoke_all log o', env')
      | None => Block
      end
  end.

(** What another thread does to the object in a critical section of its
    own, entered through [lock] with a lock at [that]. *)
Definition critical_section (that : LockPtr) (f : Notifiable -> Notifiable)
    (o : Notifiable) : Notifiable :=
  match lock that (fun x => Ret tt (f x)) o with
  | Ret _ o' => o'
  | _ => o
  end.

End WithObject.

Arguments Notifiable T : clear implicits.

End GuardLock.

(* ===================================================================== *)
(** * src/timer.cpp and timer.h : [Timer::Self] and [Timer::Handle]       *)
(* ===================================================================== *)

Module Timer.
Import Guard State.

(** A [DelayedTask] object: its [_delay] and its [_state]. *)
Record Task : Type := mkTask { _delay : Z; _state : DelayedTask.World }.

(** [Timer::Self]: the queue, and the tasks that exist, by address; [brk]
    is the address the next [make_shared<DelayedTask>] returns. *)
Record Self : Type := mkSelf {
  _queue : TimerQueue.Queue;
  tasks : gmap nat Task;
  brk : nat
}.

(** [task->delay()], for the addresses that hold a task. *)
Definition delay (tm : Self) (task : TimerQueue.TaskPtr) : Z :=
  match tasks tm !! task with
  | Some t => _delay t
  | None => 0%Z
  end.

Definition set_state (task : TimerQueue.TaskPtr) (w : DelayedTask.World)
    (tm : Self) : Self :=
  {| _queue := _queue tm;
     tasks := alter (fun t => {| _delay := _delay t; _state := w |}) task
                (tasks tm);
     brk := brk tm |}.

Definition set_queue (q : TimerQueue.Queue) (tm : Self) : Self :=
  {| _queue := q; tasks := tasks tm; brk := brk tm |}.

(** [task->cancel()] on the task at an address. *)
Definition task_cancel (self : ThreadId) (env : Env DelayedTask.World)
    (task : TimerQueue.TaskPtr) (tm : Self) : Res Self bool :=
  match tasks tm !! task with
  | None => Block
  | Some t =>
      match DelayedTask.cancel self env (_state t) with
      | Ret b w' => Ret b (set_state task w' tm)
      | Throw e w' => Throw e (set_state task w' tm)
      | Block => Block
      end
  end.

(** [std::shared_ptr<DelayedTask> Self::addTask(task)] *)
Definition Self_addTask (self : ThreadId) (env : Env DelayedTask.World)
    (now : TimerQueue.TimePoint) (task : TimerQueue.TaskPtr) (tm : Self)
  : Res Self TimerQueue.TaskPtr :=
  let '(added, _, q') := TimerQueue.addTask (delay tm) now task (_queue tm) in
  let tm1 := set_queue q' tm in
  if added then Ret task tm1
  else
    match task_cancel self env task tm1 with
    | Ret _ tm2 => Ret task tm2
    | Throw e tm2 => Throw e tm2
    | Block => Block
    end.

(** [task->isCancelled()] on the task at an address. *)
Definition task_isCancelled (task : TimerQueue.TaskPtr) (tm : Self)
  : Res Self bool :=
  match tasks tm !! task with
  | None => Block
  | Some t =>
      match DelayedTask.isCancelled (_state t) with
      | Ret b w' => Ret b (set_state task w' tm)
      | Throw e w' => Throw e (set_state task w' tm)
      | Block => Block
      end
  end.

(** How a call on the timer ends when the calling thread may be inside a
    [_state.call] of a task.  [Deadlock]: the thread asked for the mutex of
    the [_state] it is inside of; that mutex is a [std::mutex], which the
    thread holds, and it does not come back.  The timer is as the thread
    left it.  [Waits]: a condition wait that nothing ends. *)
Inductive Outcome (A : Type) : Type :=
| Returned (a : A) (tm : Self)
| Rethrown (e : Exn) (tm : Self)
| Waits
| Deadlock (tm : Self).
Arguments Returned {A} a tm.
Arguments Rethrown {A} e tm.
Arguments Waits {A}.
Arguments Deadlock {A} tm.

(** A [_state.call] on [task] by a thread that is inside a [_state.call] of
    the task [inside], if it is inside one. *)
Definition state_call {A : Type} (inside : option TimerQueue.TaskPtr)
    (task : TimerQueue.TaskPtr) (call : Self -> Res Self A) (tm : Self)
  : Outcome A :=
  if bool_decide (inside = Some task) then Deadlock tm
  else match call tm with
       | Ret a tm' => Returned a tm'
       | Throw e tm' => Rethrown e tm'
       | Block => Waits
       end.

(** [std::shared_ptr<DelayedTask> Self::rescheduleTask(task)] *)
Definition Self_rescheduleTask (inside : option TimerQueue.TaskPtr)
    (self : ThreadId) (env : Env DelayedTask.World)
    (now : TimerQueue.TimePoint) (task : TimerQueue.TaskPtr) (tm : Self)
  : Outcome TimerQueue.TaskPtr :=
  let '(moved, _, q') :=
    TimerQueue.rescheduleTask (delay tm) now task (_queue tm) in
  let tm1 := set_queue q' tm in
  if moved then Returned task tm1
  else
    match state_call inside task (task_cancel self env task) tm1 with
    | Returned _ tm2 => Returned task tm2
    | Rethrown e tm2 => Rethrown e tm2
    | Waits => Waits
    | Deadlock tm2 => Deadlock tm2
    end.

(** [bool Timer::reschedule(std::shared_ptr<DelayedTask> task)]:
    [_self->rescheduleTask(task); return !task->isCancelled();] *)
Definition reschedule (inside : option TimerQueue.TaskPtr)
    (self : ThreadId) (env : Env DelayedTask.World)
    (now : TimerQueue.TimePoint) (task : TimerQueue.TaskPtr) (tm : Self)
  : Outcome bool :=
  match Self_rescheduleTask inside self env now task tm with
  | Returned _ tm1 =>
      match state_call inside task (task_isCancelled task) tm1 with
      | Returned b tm2 => Returned (negb b) tm2
      | Rethrown e tm2 => Rethrown e tm2
      | Waits => Waits
      | Deadlock tm2 => Deadlock tm2
      end
  | Rethrown e tm1 => Rethrown e tm1
  | Waits => Waits
  | Deadlock tm1 => Deadlock tm1
  end.

(** [DelayedTask::restart()] on the task at an address, with the timer in
    view.  The phase machine takes what [Timer::reschedule] comes to as a
    parameter; here the parameter is what the call does come to when it is
    made from inside the [_state.call] of the task, which is where
    [StateWaiting::restart], and it alone, makes it. *)
Definition restart (self : ThreadId) (env : Env DelayedTask.World)
    (now : TimerQueue.TimePoint) (task : TimerQueue.TaskPtr) (tm : Self)
  : Outcome bool :=
  match tasks tm !! task with
  | None => Waits
  | Some t =>
      let called := reschedule (Some task) self env now task tm in
      let calls :=
        {| DelayedTask.start := None;
           DelayedTask.reschedule :=
             match called with Returned b _ => Some b | _ => None end |} in
      let waiting :=
        match DelayedTask.phase (_state t) with
        | Some DelayedTask.StateWaiting => true
        | _ => false
        end in
      match DelayedTask.restart calls (_state t) with
      | Ret b w' =>
          Returned b
            (set_state task w'
               (match called with
                | Returned _ tm1 => if waiting then tm1 else tm
                | _ => tm
                end))
      | Throw e w' => Rethrown e (set_state task w' tm)
      | Block =>
          if waiting then
            match called with
            | Returned _ _ => Waits
            | stuck => stuck
            end
          else Waits
      end
  end.

(** [Timer::addDelayedTask(duration, task)]: a new [DelayedTask] is made and
    handed to [Self::addTask]; the result is the handle. *)
Definition addDelayedTask (self : ThreadId) (now : TimerQueue.TimePoint)
    (duration : Z) (tm : Self) : Res Self TimerQueue.TaskPtr :=
  let task := brk tm in
  let tm1 := {| _queue := _queue tm;
                tasks := <[task := {| _delay := duration;
                                      _state := DelayedTask.DelayedTask_new |}]>
                           (tasks tm);
                brk := S task |} in
  Self_addTask self [] now task tm1.

(** The body of the loop of [Self::dispatcher] once [getTask] has handed out
    [task]: the closure that runs the task goes to the pool, and the task is
    cancelled when the pool does not take it. *)
Definition dispatch (self : ThreadId) (env : Env DelayedTask.World)
    (task : TimerQueue.TaskPtr) (pool : ThreadPool.TaskQueue) (tm : Self)
  : Res (Self * ThreadPool.TaskQueue) unit :=
  let closure := ThreadPool.mkCallable task ThreadPool.Returns in
  let '(taken, _, pool') := ThreadPool.addTask (Some closure) pool in
  if taken then Ret tt (tm, pool')
  else
    match task_cancel self env task tm with
    | Ret _ tm' => Ret tt (tm', pool')
    | Throw e tm' => Throw e (tm', pool')
    | Block => Block
    end.

(** The loop of [Queue::cancelAll] with the tasks in view; [envs] is what
    the other threads do while the [cancel] of a task waits. *)
Fixpoint cancel_each (self : ThreadId)
    (envs : TimerQueue.TaskPtr -> Env DelayedTask.World)
    (ps : list TimerQueue.TaskPtr) (tm : Self) : Res Self unit :=
  match ps with
  | [] => Ret tt tm
  | task :: ps' =>
      match task_cancel self (envs task) task tm with
      | Ret _ tm' => cancel_each self envs ps' tm'
      | Throw e tm' => Throw e tm'
      | Block => Block
      end
  end.

(** [~Self()], the join of the dispatcher apart: [stop] and then
    [cancelAll].  An exception would leave a destructor. *)
Definition Self_destroy (self : ThreadId)
    (envs : TimerQueue.TaskPtr -> Env DelayedTask.World) (tm : Self)
  : Res Self unit :=
  let tm1 := set_queue (TimerQueue.stop (_queue tm)).2 tm in
  let '(ps, q2) := TimerQueue.cancelAll (_queue tm1) in
  cancel_each self envs ps (set_queue q2 tm1).

(** How the destructor of a handle ends. *)
Inductive Dropped : Type :=
| Released (w : DelayedTask.World)
| Terminated (e : Exn) (w : DelayedTask.World)   (* [std::terminate] *)
| Hangs.

(** [~Handle() { cancel(); }]: a destructor is [noexcept]. *)
Definition Handle_destroy (self : ThreadId) (env : Env DelayedTask.World)
    (w : DelayedTask.World) : Dropped :=
  match DelayedTask.cancel self env w with
  | Ret _ w' => Released w'
  | Throw e w' => Terminated e w'
  | Block => Hangs
  end.

(** The tasks of a timer are where they are said to be: addresses from
    [brk] on are unused, in the heap and in the queue. *)
Definition fresh_from_brk (tm : Self) : Prop :=
  ∀ p, brk tm ≤ p ->
       tasks tm !! p = None ∧ TimerQueue._mapping (_queue tm) !! p = None.

(** A task that exists and is neither running nor ended in an exception. *)
Definition at_rest (tm : Self) (task : TimerQueue.TaskPtr) : Prop :=
  ∃ t, tasks tm !! task = Some t
       ∧ DelayedTask.allocated (_state t)
       ∧ (DelayedTask.phase (_state t) = Some DelayedTask.StateWaiting
          ∨ DelayedTask.phase (_state t) = Some DelayedTask.StateDone
          ∨ DelayedTask.phase (_state t) = Some DelayedTask.StateCancelled).

(** A task that exists and is cancelled. *)
Definition cancelled (tm : Self) (task : TimerQueue.TaskPtr) : Prop :=
  ∃ t, tasks tm !! task = Some t
       ∧ DelayedTask.allocated (_state t)
       ∧ DelayedTask.phase (_state t) = Some DelayedTask.StateCancelled.

End Timer.

(* ===================================================================== *)
(** * once.h : [parallel::Once]                                           *)
(* ===================================================================== *)

Module Once.

Definition EMPTY : Z := 0.
Definition INITIALIZATION : Z := 1.
Definition HAS_VALUE : Z := 2.
Definition DISABLED : Z := 4.

Section WithObject.

Context {Object : Type}.

(** [_flags] and [_object].  The storage is a [std::optional<Object>], or an
    [Object] that is default-constructed and so never empty; the calls on
    the atomic [_flags] are those of one thread. *)
Record Once : Type := mkOnce { _flags : Z; _object : option Object }.

(** [Once() : _flags(EMPTY)]; [initial] is the storage as the constructor
    leaves it. *)
Definition Once_new (initial : option Object) : Once :=
  {| _flags := EMPTY; _object := initial |}.

(** [_flags.compare_exchange_strong(expected, desired)]: whether it
    succeeded, [expected] afterwards, and the object. *)
Definition compare_exchange_strong (expected desired : Z) (o : Once)
  : bool * Z * Once :=
  if (_flags o =? expected)%Z
  then (true, expected, {| _flags := desired; _object := _object o |})
  else (false, _flags o, o).

(** What an initialization does to the storage, and the exception it throws
    if it throws one. *)
Definition How : Type := option Object -> option Object * option Exn.

(** [bool init(How how)]: [inl] the result, [inr] the exception thrown on. *)
Definition init (how : How) (o : Once) : (bool + Exn) * Once :=
  let '(exchanged, expected, o1) :=
    compare_exchange_strong EMPTY INITIALIZATION o in
  if negb exchanged then (inl false, o1)
  else
    let '(stored, thrown) := how (_object o1) in
    match thrown with
    | Some e => (inr e, {| _flags := expected; _object := stored |})
    | None => (inl true, {| _flags := HAS_VALUE; _object := stored |})
    end.

(** [bool operator=(Object object)] and, for the optional storage,
    [emplace(args...)]. *)
Definition assign (object : Object) : Once -> (bool + Exn) * Once :=
  init (fun _ => (Some object, None)).

(** [create(initializator)] *)
Definition create (initializator : How) : Once -> (bool + Exn) * Once :=
  init initializator.

(** What [get] returns: a null pointer, a pointer to the object, or nothing
    because [value()] of an empty optional threw out of a [noexcept]
    function. *)
Inductive Got : Type :=
| Nullptr
| Pointer (x : Object)
| Terminates.

(** [get(self)]; [fuel] bounds the rounds of [while (true)], and [None]
    means that the bound was reached. *)
Fixpoint get (fuel : nat) (o : Once) : option Got :=
  match fuel with
  | O => None
  | S fuel' =>
      if negb (Z.land (_flags o) INITIALIZATION =? 0)%Z then get fuel' o
      else if negb (Z.land (_flags o) HAS_VALUE =? 0)%Z then
             match _object o with
             | Some x => Some (Pointer x)
             | None => Some Terminates
             end
           else Some Nullptr
  end.

(** The [do ... while] of [disable]. *)
Fixpoint disable_loop (fuel : nat) (expected : Z) (o : Once) : option Once :=
  match fuel with
  | O => None
  | S fuel' =>
      if negb (Z.land expected DISABLED =? 0)%Z then Some o
      else
        let expected1 :=
          if negb (Z.land expected INITIALIZATION =? 0)%Z
          then HAS_VALUE else expected in
        let desired := Z.lor expected1 DISABLED in
        match compare_exchange_strong expected1 desired o with
        | (true, _, o') => Some o'
        | (false, expected2, o') => disable_loop fuel' expected2 o'
        end
  end.

(** [disable(self)] *)
Definition disable (fuel : nat) (o : Once) : option (Got * Once) :=
  match disable_loop fuel (_flags o) o with
  | Some o' =>
      match get fuel o' with
      | Some r => Some (r, o')
      | None => None
      end
  | None => None
  end.

(** The values [_flags] has between two calls. *)
Definition settled (o : Once) : Prop :=
  _flags o = EMPTY ∨ _flags o = HAS_VALUE
  ∨ _flags o = DISABLED ∨ _flags o = Z.lor HAS_VALUE DISABLED.

End WithObject.

Arguments Once Object : clear implicits.
Arguments How Object : clear implicits.
Arguments Got Object : clear implicits.

End Once.

(* ===================================================================== *)
(** * src/timer.cpp : the operations of [Timer::Queue] in sequence        *)
(* ===================================================================== *)

Module TimerQueueOps.
Import Guard TimerQueue.

(** The public operations of the queue, each with the reading of the clock
    it is called at where it reads the clock. *)
Inductive Op : Type :=
| OpAddTask (now : TimePoint) (task : TaskPtr)
| OpRescheduleTask (now : TimePoint) (task : TaskPtr)
| OpStop
| OpCancelAll
| OpGetTask (fuel : nat) (env : Env Watched) (now : TimePoint).

Definition apply_op (delay : TaskPtr -> Z) (q : Queue) (op : Op) : Queue :=
  match op with
  | OpAddTask now task => (addTask delay now task q).2
  | OpRescheduleTask now task => (rescheduleTask delay now task q).2
  | OpStop => (stop q).2
  | OpCancelAll => (cancelAll q).2
  | OpGetTask fuel env now =>
      match getTask fuel env (q, now) with
      | Some (Ret _ ((q', _), _)) => q'
      | _ => q
      end
  end.

End TimerQueueOps.

(* ===================================================================== *)
(** * Properties of [Defer]                                               *)
(* ===================================================================== *)

Section DeferFacts.
Import Defer.
Context {Callback : Type}.
Variable throws : Callback -> bool.
Variable moved_from : Callback -> Callback.

Lemma run_called (d : Defer Callback) (log : list Callback) :
  called d = true -> run throws d log = Normal (d, log).
Proof. intros H. unfold run. by rewrite H. Qed.

Lemma run_pending (d : Defer Callback) (log : list Callback) :
  called d = false -> throws (callback d) = false ->
  run throws d log = Normal (pass d, log ++ [callback d]).
Proof. intros H1 H2. unfold run. by rewrite H1, H2. Qed.

Lemma destroy_called (d : Defer Callback) (log : list Callback) :
  called d = true -> destroy throws d log = (log, false).
Proof. intros H. unfold destroy. by rewrite run_called. Qed.

(** Once the callback has run, further calls of [run] change nothing. *)
Lemma exec_runs_called (ops : list (Op Callback)) (d : Defer Callback)
    (log : list Callback) :
  called d = true -> Forall (fun o => o = OpRun) ops ->
  exec throws ops d log = FallsOff d log.
Proof.
  intros Hd Hops. induction Hops as [|o ops -> _ IH]; simpl; [done|].
  by rewrite run_called.
Qed.

(** With nothing but [run()] in the scope, the callback is pending at the
    end exactly when the scope is empty. *)
Lemma exec_runs_pending (ops : list (Op Callback)) (d : Defer Callback)
    (log : list Callback) :
  called d = false -> throws (callback d) = false ->
  Forall (fun o => o = OpRun) ops ->
  exec throws ops d log =
    match ops with
    | [] => FallsOff d log
    | _ :: _ => FallsOff (pass d) (log ++ [callback d])
    end.
Proof.
  intros Hd Ht Hops. destruct Hops as [|o ops -> Hops]; simpl; [done|].
  rewrite run_pending by done. by rewrite exec_runs_called.
Qed.

Lemma exec_runs_destroy (ops : list (Op Callback)) (d : Defer Callback)
    (log : list Callback) :
  called d = false -> throws (callback d) = false ->
  Forall (fun o => o = OpRun) ops ->
  ∃ d' log', exec throws ops d log = FallsOff d' log'
             ∧ destroy throws d' log' = (log ++ [callback d], false).
Proof.
  intros Hd Ht Hops. rewrite exec_runs_pending by done.
  destruct ops; eexists _, _; (split; [done|]).
  - unfold destroy. by rewrite run_pending.
  - by rewrite destroy_called.
Qed.

End DeferFacts.

(** C9, as the code has it.  A [Defer] made from a callback that returns
    normally, on which nothing but [run()] is called before it goes out of
    scope, invokes the callback exactly once, by the first [run()] or else
    by the destructor; the same holds when the value was moved into another
    one first.  A moved-from [Defer] is marked as passed and neither [run()]
    nor its destructor invokes anything, and a [run()] after a [run()] that
    invoked the callback changes nothing. *)
Theorem Defer_runs_callback_once {Callback : Type}
    (throws : Callback -> bool) (moved_from : Callback -> Callback)
    (c : Callback) (ops : list (Defer.Op Callback)) :
  throws c = false ->
  Forall (fun o => o = Defer.OpRun) ops ->
  Defer.scope throws c ops = ([c], false)
  ∧ Defer.moved_scope throws moved_from c ops = ([c], false)
  ∧ (∀ other new other' log,
       Defer.move_ctor moved_from other = (new, other') ->
       Defer.passed other' = true
       ∧ Defer.run throws other' log = Defer.Normal (other', log)
       ∧ Defer.destroy throws other' log = (log, false)
       ∧ Defer.callback new = Defer.callback other
       ∧ Defer.called new = Defer.called other)
  ∧ (∀ d log d' log',
       Defer.run throws d log = Defer.Normal (d', log') ->
       Defer.run throws d' log' = Defer.Normal (d', log')).
Proof.
  intros Hc Hops. repeat split.
  - unfold Defer.scope.
    destruct (exec_runs_destroy throws ops (Defer.make c) [] eq_refl Hc Hops)
      as (d' & l & -> & Hd).
    exact Hd.
  - unfold Defer.moved_scope, Defer.move_ctor. simpl.
    destruct (exec_runs_destroy throws ops
                (Defer.mkDefer c false) [] eq_refl Hc Hops)
      as (d' & l & -> & ->).
    by apply destroy_called.
  - by injection H as <- <-.
  - injection H as <- <-. by apply run_called.
  - injection H as <- <-. by apply destroy_called.
  - by injection H as <- <-.
  - by injection H as <- <-.
  - intros d log d' log'. unfold Defer.run at 1.
    destruct (Defer.called d) eqn:Hd.
    + intros [= <- <-]. by apply run_called.
    + destruct (throws (Defer.callback d)); [done|].
      intros [= <- <-]. by apply run_called.
Qed.

Lemma Defer_runs_callback_once_witness :
  (fun _ : nat => false) 7 = false
  ∧ Forall (fun o : Defer.Op nat => o = Defer.OpRun) [Defer.OpRun; Defer.OpRun]
  ∧ Defer.scope (fun _ : nat => false) 7 [Defer.OpRun; Defer.OpRun]
    = ([7], false).
Proof.
  split; [reflexivity|]. split; [repeat constructor|].
  apply (Defer_runs_callback_once (fun _ : nat => false) (fun c => c) 7
           [Defer.OpRun; Defer.OpRun]); [reflexivity | repeat constructor].
Defined.

(** C9 as stated does not hold of every [Defer]: [pass()] marks the value as
    consumed, and the callback it was made from is then never invoked, by
    [run()] or by the destructor. *)
Lemma Defer_pass_drops_callback :
  Defer.scope (fun _ : nat => false) 7 [Defer.OpPass; Defer.OpRun] = ([], false)
  ∧ fst (Defer.scope (fun _ : nat => false) 7 [Defer.OpPass; Defer.OpRun]) ≠ [7].
Proof. split; [reflexivity | discriminate]. Qed.

(* ===================================================================== *)
(** * Properties of the state engine                                      *)
(* ===================================================================== *)

Section EngineFacts.
Import Guard State.
Context {Ptr : Type} `{EqDecision Ptr} {X : Type}.
Implicit Types (w : World Ptr X) (req : Request Ptr).
Implicit Types (call : Ptr -> World Ptr X -> Res (World Ptr X) (Request Ptr)).

(** The two ways out of [BaseSwitcher] after the call has returned. *)
Lemma BaseSwitcher_stale call w req w' :
  call (state w) w = Ret req w' -> state w' ≠ state w ->
  BaseSwitcher call w = Ret false w'.
Proof.
  intros Hcall Hne. unfold BaseSwitcher. rewrite Hcall.
  by rewrite bool_decide_eq_true_2.
Qed.

Lemma BaseSwitcher_current call w req w' :
  call (state w) w = Ret req w' -> state w' = state w ->
  BaseSwitcher call w =
    Ret (result req)
        match result req, newState req with
        | true, Some p => {| state := p; rest := rest w' |}
        | _, _ => w'
        end.
Proof.
  intros Hcall Heq. unfold BaseSwitcher. rewrite Hcall.
  rewrite bool_decide_eq_false_2 by (by intros ?).
  by destruct (result req), (newState req).
Qed.

(** An exception of the member, or a wait that never ends, is the outcome
    of the whole call. *)
Lemma BaseSwitcher_throw call w e w' :
  call (state w) w = Throw e w' -> BaseSwitcher call w = Throw e w'.
Proof. intros Hcall. unfold BaseSwitcher. by rewrite Hcall. Qed.

Lemma BaseSwitcher_block call w :
  call (state w) w = Block -> BaseSwitcher call w = Block.
Proof. intros Hcall. unfold BaseSwitcher. by rewrite Hcall. Qed.

End EngineFacts.

(** C1, as the code has it.  When the pointer in the cell differs from
    [persistent] after the member has returned, the call installs nothing:
    the cell keeps the pointer found there, and the caller gets [false],
    whatever [result] the member computed. *)
Theorem BaseSwitcher_changed_returns_false
    {Ptr : Type} `{EqDecision Ptr} {X : Type}
    (call : Ptr -> State.World Ptr X
            -> Guard.Res (State.World Ptr X) (State.Request Ptr))
    (w w' : State.World Ptr X) (req : State.Request Ptr) :
  call (State.state w) w = Guard.Ret req w' ->
  State.state w' ≠ State.state w ->
  State.BaseSwitcher call w = Guard.Ret false w'.
Proof. apply BaseSwitcher_stale. Qed.

Lemma BaseSwitcher_changed_returns_false_witness :
  let call := fun (_ : nat) (_ : State.World nat unit) =>
                Guard.Ret (State.Request_of_ptr (Some 2)) (State.mkWorld 1 tt) in
  let w := State.mkWorld 0 tt in
  call (State.state w) w
    = Guard.Ret (State.Request_of_ptr (Some 2)) (State.mkWorld 1 tt)
  ∧ State.state (State.mkWorld 1 tt) ≠ State.state w
  ∧ State.BaseSwitcher call w = Guard.Ret false (State.mkWorld 1 tt).
Proof.
  intros call w. split; [reflexivity|]. split; [discriminate|].
  apply (BaseSwitcher_changed_returns_false call w (State.mkWorld 1 tt)
           (State.Request_of_ptr (Some 2))); [reflexivity | discriminate].
Defined.

(** C1 as stated fails where the member computed [true] and the pointer in
    the cell was replaced in the meantime: the caller gets [false], not the
    [result] of the member. *)
Lemma BaseSwitcher_changed_not_raw_result :
  let call := fun (_ : nat) (_ : State.World nat unit) =>
                Guard.Ret (State.Request_of_bool true) (State.mkWorld 1 tt) in
  let w := State.mkWorld 0 tt in
  let req := State.Request_of_bool (Ptr := nat) true in
  let w' := State.mkWorld 1 tt in
  call (State.state w) w = Guard.Ret req w'
  ∧ State.state w' ≠ State.state w
  ∧ State.BaseSwitcher call w = Guard.Ret false w'
  ∧ State.BaseSwitcher call w ≠ Guard.Ret (State.result req) w'.
Proof. repeat split; discriminate. Qed.

(** C2.  When the pointer in the cell is still [persistent] after the member
    has returned its [Request]: with [result = false] the cell is left as it
    is and the caller gets [false]; with [result = true] and a null
    [newState] the cell is left as it is and the caller gets [true]; with
    [result = true] and [newState = p] the cell is made to point to [p] and
    the caller gets [true]. *)
Theorem BaseSwitcher_unchanged_applies_request
    {Ptr : Type} `{EqDecision Ptr} {X : Type}
    (call : Ptr -> State.World Ptr X
            -> Guard.Res (State.World Ptr X) (State.Request Ptr))
    (w w' : State.World Ptr X) (req : State.Request Ptr) :
  call (State.state w) w = Guard.Ret req w' ->
  State.state w' = State.state w ->
  (State.result req = false ->
     State.BaseSwitcher call w = Guard.Ret false w')
  ∧ (State.result req = true -> State.newState req = None ->
     State.BaseSwitcher call w = Guard.Ret true w')
  ∧ (∀ p, State.result req = true -> State.newState req = Some p ->
     State.BaseSwitcher call w
       = Guard.Ret true {| State.state := p; State.rest := State.rest w' |}).
Proof.
  intros Hcall Heq.
  rewrite (BaseSwitcher_current call w req w' Hcall Heq).
  repeat split.
  - by intros ->.
  - by intros -> ->.
  - by intros p -> ->.
Qed.

Lemma BaseSwitcher_unchanged_applies_request_witness :
  let call := fun (_ : nat) (w : State.World nat unit) =>
                Guard.Ret (State.Request_of_ptr (Some 5)) w in
  let w := State.mkWorld 0 tt in
  call (State.state w) w = Guard.Ret (State.Request_of_ptr (Some 5)) w
  ∧ State.state w = State.state w
  ∧ State.BaseSwitcher call w = Guard.Ret true (State.mkWorld 5 tt).
Proof.
  intros call w. split; [reflexivity|]. split; [reflexivity|].
  apply (BaseSwitcher_unchanged_applies_request call w w
           (State.Request_of_ptr (Some 5)) eq_refl eq_refl);
    reflexivity.
Defined.

(* ===================================================================== *)
(** * Properties of the worker pool                                       *)
(* ===================================================================== *)

Section ThreadPoolFacts.
Import Guard ThreadPool.
Implicit Types (q : TaskQueue) (task : Task) (env : Env TaskQueue).

Lemma addTask_rejects task q :
  _quit q = true ∨ task = None -> addTask task q = (false, [], q).
Proof.
  intros [Hq| ->]; unfold addTask.
  - by rewrite Hq.
  - by rewrite orb_true_r.
Qed.

Lemma addTask_accepts task q :
  _quit q = false -> is_Some task ->
  addTask task q
    = (true, [NotifyOne], {| _quit := false; _queue := _queue q ++ [task] |}).
Proof.
  intros Hq Ht. unfold addTask. rewrite Hq.
  by rewrite bool_decide_eq_true_2.
Qed.

(** A stopped queue hands out the empty task at once and stays as it is. *)
Lemma getTask_stopped fuel env q :
  _quit q = true -> getTask (S fuel) env q = Some (Ret None (q, env)).
Proof. intros Hq. simpl. by rewrite Hq. Qed.

(** No operation takes [_quit] back, and on a stopped queue no operation
    touches the tasks. *)
Lemma apply_op_stopped q op :
  _quit q = true -> apply_op q op = q ∨ apply_op q op = snd (stop q).
Proof.
  intros Hq. destruct op as [task| |fuel env]; simpl.
  - left. by rewrite addTask_rejects by auto.
  - by right.
  - left. destruct fuel; [done|]. by rewrite getTask_stopped.
Qed.

Lemma foldl_apply_op_stopped (ops : list QueueOp) q :
  _quit q = true ->
  _quit (foldl apply_op q ops) = true
  ∧ _queue (foldl apply_op q ops) = _queue q.
Proof.
  revert q. induction ops as [|op ops IH]; intros q Hq; simpl; [done|].
  destruct (apply_op_stopped q op Hq) as [-> | ->]; [by apply IH|].
  by apply (IH (snd (stop q))).
Qed.

(** The wait of [getTask] comes back only with a queue that is stopped or
    has a task in it, so the loop is left after two rounds at most. *)
Lemma cv_wait_holds {W : Type} (predicate : W -> bool) (env : Env W)
    (w w' : W) (env' : Env W) :
  cv_wait predicate env w = Some (w', env') -> predicate w' = true.
Proof.
  revert w. induction env as [|f env IH]; intros w; simpl.
  - destruct (predicate w) eqn:Hp; [|done]. by intros [= <- _].
  - destruct (predicate w) eqn:Hp; [by intros [= <- _]|]. apply IH.
Qed.

Lemma getTask_total fuel env q : getTask (S (S fuel)) env q ≠ None.
Proof.
  cbn [getTask]. destruct (_quit q); [done|].
  unfold waitForNotification; simpl.
  destruct (cv_wait quit_or_nonempty env q) as [[q' env']|] eqn:Hw; [|done].
  destruct (_queue q') eqn:Hq'; [|done].
  apply cv_wait_holds in Hw. unfold quit_or_nonempty in Hw.
  rewrite Hq', bool_decide_eq_true_2, orb_false_r in Hw by done.
  by rewrite Hw.
Qed.



End ThreadPoolFacts.

(** C7.  [addTask] returns [false] exactly when the queue has been stopped
    or the task is empty, and then nothing changes; otherwise the task is
    put at the back of the queue, one waiting worker is notified and the
    result is [true].  The pool hands its [addTask] on to the queue. *)
Theorem TaskQueue_addTask_false_iff
    (task : ThreadPool.Task) (q : ThreadPool.TaskQueue) :
  (fst (fst (ThreadPool.addTask task q)) = false
     <-> ThreadPool._quit q = true ∨ task = None)
  ∧ (ThreadPool._quit q = true ∨ task = None ->
       ThreadPool.addTask task q = (false, [], q))
  ∧ (¬ (ThreadPool._quit q = true ∨ task = None) ->
       ThreadPool.addTask task q
         = (true, [ThreadPool.NotifyOne],
            {| ThreadPool._quit := ThreadPool._quit q;
               ThreadPool._queue := ThreadPool._queue q ++ [task] |}))
  ∧ (∀ handler,
       ThreadPool.pool_addTask task (ThreadPool.mkPool handler q)
         = (fst (fst (ThreadPool.addTask task q)),
            ThreadPool.mkPool handler (snd (ThreadPool.addTask task q)))).
Proof.
  assert (Hno : ¬ (ThreadPool._quit q = true ∨ task = None) ->
                ThreadPool._quit q = false ∧ is_Some task).
  { intros Hn. split.
    - destruct (ThreadPool._quit q); [|done]. destruct Hn; auto.
    - destruct task; [by eexists|]. destruct Hn; auto. }
  repeat split.
  - intros Hf.
    destruct (decide (ThreadPool._quit q = true ∨ task = None)) as [|Hn];
      [done|].
    destruct (Hno Hn) as [Hq Ht].
    rewrite addTask_accepts in Hf by done. done.
  - intros H. by rewrite addTask_rejects.
  - apply addTask_rejects.
  - intros Hn. destruct (Hno Hn) as [Hq Ht].
    rewrite addTask_accepts by done. by rewrite Hq.
  - intros handler. unfold ThreadPool.pool_addTask. simpl.
    by destruct (ThreadPool.addTask task q) as [[r s] q'].
Qed.

(** C5, for the calls made after [stop].  Once [stop] has been called on
    the queue of the pool, whatever is done to the queue afterwards, a call
    of [getTask] that is made then returns the empty task at once; the tasks
    that were in the queue stay there and are handed to no such call, and a
    worker that calls [getTask] then leaves its loop without having invoked
    anything. *)
Theorem TaskQueue_getTask_after_stop
    (p : ThreadPool.SimpleThreadPool) (ops : list ThreadPool.QueueOp)
    (fuel : nat) (env : Guard.Env ThreadPool.TaskQueue) :
  let q' := foldl ThreadPool.apply_op
              (ThreadPool._tasks (ThreadPool.pool_stop p)) ops in
  ThreadPool.getTask (S fuel) env q' = Some (Guard.Ret None (q', env))
  ∧ ThreadPool._queue q' = ThreadPool._queue (ThreadPool._tasks p)
  ∧ (∀ tr, ThreadPool.run (S fuel) (ThreadPool._handler p) env q' tr
           = Some (ThreadPool.Finished, tr, q')).
Proof.
  intros q'.
  destruct (foldl_apply_op_stopped ops
              (ThreadPool._tasks (ThreadPool.pool_stop p)) eq_refl)
    as [Hquit Hqueue].
  fold q' in Hquit, Hqueue.
  assert (Hget := getTask_stopped fuel env q' Hquit).
  repeat split; [done..|].
  intros tr. cbn [ThreadPool.run]. by rewrite Hget.
Qed.

(** C5 as stated fails for a worker that is already inside [getTask] when
    [stop] is called: a worker waits on the empty queue, a task is put in
    and [stop] is called before the worker wakes up; the worker is handed
    the task, with [_quit] set, and invokes it before it leaves its loop. *)
Lemma TaskQueue_waiting_getTask_returns_task_after_stop :
  let c := ThreadPool.mkCallable 1 ThreadPool.Returns in
  let add_then_stop := fun q : ThreadPool.TaskQueue =>
    (ThreadPool.stop (ThreadPool.addTask (Some c) q).2).2 in
  let q0 := ThreadPool.TaskQueue_new in
  ThreadPool._quit (add_then_stop q0) = true
  ∧ ThreadPool._queue (add_then_stop q0) = [Some c]
  ∧ ThreadPool.getTask 1 [add_then_stop] q0
    = Some (Guard.Ret (Some c) (ThreadPool.mkTaskQueue true [], []))
  ∧ ThreadPool.run 2 None [add_then_stop] q0 ThreadPool.Trace_empty
    = Some (ThreadPool.Finished,
            {| ThreadPool.invoked := [c]; ThreadPool.forwarded := [] |},
            ThreadPool.mkTaskQueue true []).
Proof. repeat split; vm_compute; reflexivity. Qed.



(* ===================================================================== *)
(** * Properties of the due-time queue of the timer                       *)
(* ===================================================================== *)

(** Arithmetic on keys, with the names of the types out of the way. *)
Ltac unalias :=
  unfold TimerQueue.Entry, TimerQueue.TimePoint, TimerQueue.TaskPtr in *.
Ltac keys_lia := unalias; simpl in *; lia.

Section MultimapFacts.
Import TimerQueue.
Implicit Types (k : TimePoint) (v task : TaskPtr) (l : list Entry).

Lemma emplace_perm k v l : (emplace k v l).2 ≡ₚ (k, v) :: l.
Proof.
  induction l as [|e l IH]; simpl; [done|].
  destruct (e.1 <=? k)%Z; [|done].
  destruct (emplace k v l) as [i r]; simpl in *.
  rewrite IH. apply Permutation_swap.
Qed.

Lemma emplace_sorted k v l :
  StronglySorted Z.le (l.*1) -> StronglySorted Z.le ((emplace k v l).2.*1).
Proof.
  induction l as [|e l IH]; intros Hs; [repeat constructor|].
  rewrite fmap_cons in Hs. apply StronglySorted_cons in Hs as [Hall Hs].
  cbn [emplace]. destruct (Z.leb_spec e.1 k) as [Hle|Hlt].
  - pose proof (emplace_perm k v l) as Hp. specialize (IH Hs).
    destruct (emplace k v l) as [i r]; cbn [fst snd] in *.
    rewrite fmap_cons. apply StronglySorted_cons. split; [|done].
    rewrite Hp, fmap_cons. by constructor.
  - cbn [snd]. rewrite !fmap_cons. apply StronglySorted_cons. split.
    + constructor; [keys_lia|]. eapply Forall_impl; [exact Hall|].
      intros; keys_lia.
    + by apply StronglySorted_cons.
Qed.

(** The new element is first exactly when its key is before every key
    that was there. *)
Lemma emplace_begin k v l :
  StronglySorted Z.le (l.*1) ->
  (emplace k v l).1 = 0 <-> Forall (fun e => (k < e.1)%Z) l.
Proof.
  intros Hs. destruct l as [|e l]; [done|].
  rewrite fmap_cons in Hs. apply StronglySorted_cons in Hs as [Hall _].
  cbn [emplace]. destruct (Z.leb_spec e.1 k) as [Hle|Hlt].
  - destruct (emplace k v l) as [i r]; cbn [fst]. split; [done|].
    intros HF. apply Forall_cons in HF as [HF _]. keys_lia.
  - split; [|done]. intros _. constructor; [done|].
    rewrite Forall_fmap in Hall. eapply Forall_impl; [exact Hall|].
    intros; keys_lia.
Qed.

Lemma emplace_head k v l :
  head (emplace k v l).2
    = match (emplace k v l).1 with 0 => Some (k, v) | S _ => head l end.
Proof.
  destruct l as [|e l]; [done|]. cbn [emplace].
  destruct (e.1 <=? k)%Z; [|done]. by destruct (emplace k v l).
Qed.

Lemma erase_in_range_elem k task l x :
  x ∈ erase_in_range k task l -> x ∈ l.
Proof.
  induction l as [|e l IH]; simpl; [done|].
  destruct (e.1 <? k)%Z.
  { intros [->|?]%elem_of_cons; [left|right; auto]. }
  destruct (e.1 =? k)%Z; [|done].
  case_bool_decide; [by right|].
  intros [->|?]%elem_of_cons; [left|right; auto].
Qed.

Lemma erase_in_range_sorted k task l :
  StronglySorted Z.le (l.*1) ->
  StronglySorted Z.le ((erase_in_range k task l).*1).
Proof.
  induction l as [|e l IH]; [done|]. intros Hs. cbn [erase_in_range].
  pose proof Hs as Hs'. rewrite fmap_cons in Hs'.
  apply StronglySorted_cons in Hs' as [Hall Hs'].
  assert (Hkeep : StronglySorted Z.le ((e :: erase_in_range k task l).*1)).
  { rewrite fmap_cons. apply StronglySorted_cons. split; [|by apply IH].
    rewrite Forall_fmap in Hall |- *. apply Forall_forall.
    intros x Hx%erase_in_range_elem. by eapply Forall_forall in Hall. }
  destruct (e.1 <? k)%Z; [done|].
  destruct (e.1 =? k)%Z; [|done].
  by case_bool_decide.
Qed.

(** In an ordered multimap the loop over the range of a key finds every
    entry of that key. *)
Lemma erase_in_range_perm k task l :
  StronglySorted Z.le (l.*1) -> (k, task) ∈ l ->
  l ≡ₚ (k, task) :: erase_in_range k task l.
Proof.
  induction l as [|e l IH]; intros Hs Hin.
  { by apply elem_of_nil in Hin. }
  rewrite fmap_cons in Hs. apply StronglySorted_cons in Hs as [Hall Hs].
  cbn [erase_in_range].
  assert (Hrec : e ≠ (k, task) ->
                 e :: l ≡ₚ (k, task) :: e :: erase_in_range k task l).
  { intros Hne. apply elem_of_cons in Hin as [Heq|Hin]; [congruence|].
    rewrite (IH Hs Hin) at 1. apply Permutation_swap. }
  destruct (Z.ltb_spec e.1 k) as [Hlt|Hge].
  { apply Hrec. intros ->. keys_lia. }
  destruct (Z.eqb_spec e.1 k) as [Heq|Hne].
  - case_bool_decide as Ht; [|apply Hrec; by intros ->].
    destruct e as [k' t']; simpl in *. by subst.
  - exfalso. apply elem_of_cons in Hin as [<-|Hin]; [done|].
    rewrite Forall_fmap in Hall.
    eapply Forall_forall in Hall; [|exact Hin]. keys_lia.
Qed.

End MultimapFacts.

Section QueueFacts.
Import Guard TimerQueue.
Variable delay : TaskPtr -> Z.
Implicit Types (q : Queue) (task : TaskPtr) (now due : TimePoint).

(** What agreement means entry by entry. *)
Lemma agree_lookup q task due :
  agree q -> _mapping q !! task = Some due <-> (due, task) ∈ _queue q.
Proof.
  unfold agree. intros Ha.
  rewrite <- elem_of_map_to_list, Ha, list_elem_of_fmap.
  split.
  - intros ([d t] & [= -> ->] & Hin). done.
  - intros Hin. by exists (due, task).
Qed.

Lemma agree_size q : agree q -> size (_mapping q) = length (_queue q).
Proof.
  unfold agree. intros Ha.
  rewrite <- length_map_to_list, Ha. by rewrite length_fmap.
Qed.

Lemma invariant_new (maxQueueSize : nat) : invariant (Queue_new maxQueueSize).
Proof.
  split; [constructor|]. split; [|unfold bounded; simpl; lia].
  unfold agree. simpl. by rewrite map_to_list_empty.
Qed.

(** [placeTask] on a queue whose index already has the task. *)
Lemma placeTask_spec due task q :
  ordered q ->
  ∃ q', placeTask due task q
          = (if bool_decide (Forall (fun e => (due < e.1)%Z) (_queue q))
             then [NotifyOne] else [], q')
        ∧ _quit q' = _quit q ∧ _maxQueueSize q' = _maxQueueSize q
        ∧ _mapping q' = _mapping q
        ∧ _queue q' ≡ₚ (due, task) :: _queue q
        ∧ head (_queue q')
          = (if bool_decide (Forall (fun e => (due < e.1)%Z) (_queue q))
             then Some (due, task) else head (_queue q))
        ∧ ordered q'.
Proof.
  intros Ho. unfold placeTask.
  pose proof (emplace_perm due task (_queue q)) as Hp.
  pose proof (emplace_sorted due task (_queue q) Ho) as Hs.
  pose proof (emplace_begin due task (_queue q) Ho) as Hb.
  pose proof (emplace_head due task (_queue q)) as Hh.
  destruct (emplace due task (_queue q)) as [i r]; simpl in *.
  eexists. split.
  { rewrite (bool_decide_ext _ _ Hb). reflexivity. }
  simpl. repeat split; try done.
  rewrite Hh. rewrite <- (bool_decide_ext _ _ Hb).
  by destruct i.
Qed.

Lemma addTask_rejected now task q :
  _quit q = true ∨ _maxQueueSize q ≤ length (_queue q) ->
  addTask delay now task q = (false, [], q).
Proof.
  intros H. unfold addTask.
  destruct (_quit q); [done|]. destruct H as [?|H]; [done|].
  apply Nat.leb_le in H. by rewrite H.
Qed.

(** A successful [addTask]. *)
Lemma addTask_accepted now task q signals q' :
  invariant q ->
  addTask delay now task q = (true, signals, q') ->
  let due := dueTime delay now task in
  _quit q = false ∧ length (_queue q) < _maxQueueSize q
  ∧ _mapping q !! task = None
  ∧ _quit q' = false ∧ _maxQueueSize q' = _maxQueueSize q
  ∧ _mapping q' = <[task := due]> (_mapping q)
  ∧ _queue q' ≡ₚ (due, task) :: _queue q
  ∧ signals = (if bool_decide (Forall (fun e => (due < e.1)%Z) (_queue q))
               then [NotifyOne] else [])
  ∧ head (_queue q')
    = (if bool_decide (Forall (fun e => (due < e.1)%Z) (_queue q))
       then Some (due, task) else head (_queue q))
  ∧ invariant q'.
Proof.
  intros (Ho & Ha & Hb) Hadd due. unfold addTask in Hadd.
  destruct (_quit q) eqn:Hq; [done|].
  destruct (Nat.leb_spec (_maxQueueSize q) (length (_queue q))) as [|Hlt];
    [done|]. simpl in Hadd.
  destruct (_mapping q !! task) eqn:Hm; [done|]. fold due in Hadd.
  match type of Hadd with
  | (let '(_, _) := placeTask _ _ ?q1 in _) = _ =>
      destruct (placeTask_spec due task q1 Ho)
        as (q2 & Hpl & Hq2 & Hmax & Hmap & Hperm & Hhead & Ho2)
  end.
  rewrite Hpl in Hadd. simpl in *. injection Hadd as <- <-.
  repeat split; try done.
  - unfold agree in *. rewrite Hmap, Hperm, fmap_cons. simpl.
    rewrite map_to_list_insert by done. by rewrite Ha.
  - unfold bounded. rewrite Hperm, Hmax. simpl. lia.
Qed.

Lemma rescheduleTask_rejected now task q :
  _quit q = true ∨ _mapping q !! task = None ->
  rescheduleTask delay now task q = (false, [], q).
Proof.
  intros H. unfold rescheduleTask.
  destruct (_quit q); [done|]. destruct H as [?|Hm]; [done|].
  by rewrite Hm.
Qed.

(** A successful [rescheduleTask]. *)
Lemma rescheduleTask_accepted now task q signals q' :
  invariant q ->
  rescheduleTask delay now task q = (true, signals, q') ->
  let due := dueTime delay now task in
  ∃ old rest,
    _mapping q !! task = Some old
    ∧ _queue q ≡ₚ (old, task) :: rest
    ∧ _queue q' ≡ₚ (due, task) :: rest
    ∧ _mapping q' = <[task := due]> (_mapping q)
    ∧ _quit q' = _quit q ∧ _maxQueueSize q' = _maxQueueSize q
    ∧ invariant q'.
Proof.
  intros (Ho & Ha & Hb) Hre due. unfold rescheduleTask in Hre.
  destruct (_quit q) eqn:Hq; [done|].
  destruct (_mapping q !! task) as [old|] eqn:Hm; [|done]. fold due in Hre.
  pose proof (proj1 (agree_lookup q task old Ha) Hm) as Hin.
  pose proof (erase_in_range_perm old task (_queue q) Ho Hin) as Hperm1.
  pose proof (erase_in_range_sorted old task (_queue q) Ho) as Ho1.
  match type of Hre with
  | (let '(_, _) := placeTask _ _ ?q1 in _) = _ =>
      destruct (placeTask_spec due task q1 Ho1)
        as (q2 & Hpl & Hq2 & Hmax & Hmap & Hperm & Hhead & Ho2)
  end.
  rewrite Hpl in Hre. simpl in *. injection Hre as <- <-.
  exists old, (erase_in_range old task (_queue q)).
  repeat split; try done.
  - unfold agree in *. rewrite Hmap, Hperm, fmap_cons. simpl.
    rewrite <- insert_delete_eq.
    rewrite map_to_list_insert by apply lookup_delete_eq.
    apply Permutation_skip.
    apply (Permutation_cons_inv (a := (task, old))).
    rewrite map_to_list_delete by done.
    etrans; [exact Ha|].
    exact (fmap_Permutation prod_swap _ _ Hperm1).
  - unfold bounded in *. rewrite Hperm, Hmax. rewrite Hperm1 in Hb.
    simpl in *. lia.
Qed.

(** Each of the two either changes nothing and says [false], or says
    [true]. *)
Lemma addTask_cases now task q :
  addTask delay now task q = (false, [], q)
  ∨ ∃ signals q', addTask delay now task q = (true, signals, q').
Proof.
  unfold addTask.
  destruct (_quit q || (_maxQueueSize q <=? length (_queue q))); [by left|].
  destruct (_mapping q !! task); [by left|].
  destruct (placeTask _ _ _) as [signals q2]. right. by eexists _, _.
Qed.

Lemma rescheduleTask_cases now task q :
  rescheduleTask delay now task q = (false, [], q)
  ∨ ∃ signals q', rescheduleTask delay now task q = (true, signals, q').
Proof.
  unfold rescheduleTask.
  destruct (_quit q); [by left|].
  destruct (_mapping q !! task); [|by left].
  destruct (placeTask _ _ _) as [signals q2]. right. by eexists _, _.
Qed.

Lemma addTask_invariant now task q :
  invariant q -> invariant (addTask delay now task q).2.
Proof.
  intros Hi. destruct (addTask_cases now task q) as [->|(s & q' & He)];
    [done|].
  rewrite He. by apply (addTask_accepted now task q s q' Hi He).
Qed.

Lemma rescheduleTask_invariant now task q :
  invariant q -> invariant (rescheduleTask delay now task q).2.
Proof.
  intros Hi.
  destruct (rescheduleTask_cases now task q) as [->|(s & q' & He)]; [done|].
  rewrite He.
  by destruct (rescheduleTask_accepted now task q s q' Hi He)
    as (old & rest & ? & ? & ? & ? & ? & ? & ?).
Qed.

Lemma stop_invariant q : invariant q -> invariant (stop q).2.
Proof. done. Qed.

Lemma cancelAll_invariant q : invariant q -> invariant (cancelAll q).2.
Proof. done. Qed.

(** Taking the first entry out of both maps. *)
Lemma pop_invariant q e rest :
  invariant q -> _queue q = e :: rest ->
  invariant {| _quit := _quit q; _maxQueueSize := _maxQueueSize q;
               _queue := rest; _mapping := delete e.2 (_mapping q) |}.
Proof.
  intros (Ho & Ha & Hb) Hq.
  assert (Hm : _mapping q !! e.2 = Some e.1).
  { apply agree_lookup; [done|]. rewrite Hq. destruct e. by left. }
  unfold invariant, ordered, agree, bounded in *. rewrite Hq in Ho, Ha, Hb.
  cbn [_queue _mapping _maxQueueSize].
  rewrite fmap_cons in Ho. rewrite fmap_cons in Ha.
  repeat split.
  - by apply StronglySorted_cons in Ho as [_ ?].
  - apply (Permutation_cons_inv (a := (e.2, e.1))).
    rewrite map_to_list_delete by done.
    rewrite Ha. by destruct e.
  - simpl in Hb. lia.
Qed.

Lemma cv_wait_invariant predicate (env : Env Watched) w w' env' :
  invariant w.1 -> Forall keeps_invariant env ->
  cv_wait predicate env w = Some (w', env') ->
  invariant w'.1 ∧ Forall keeps_invariant env'.
Proof.
  revert w. induction env as [|f env IH]; intros w Hi He; simpl.
  - destruct (predicate w); [|done]. by intros [= <- <-].
  - destruct (predicate w); [by intros [= <- <-]|].
    apply Forall_cons in He as [Hf He]. apply IH; auto.
Qed.

Lemma cv_wait_until_invariant predicate point (env : Env Watched) w w' env' :
  invariant w.1 -> Forall keeps_invariant env ->
  cv_wait_until predicate point env w = Some (w', env') ->
  invariant w'.1 ∧ Forall keeps_invariant env'.
Proof.
  revert w. induction env as [|f env IH]; intros w Hi He; simpl.
  - destruct (predicate w); [|done]. by intros [= <- <-].
  - destruct (predicate w); [by intros [= <- <-]|].
    apply Forall_cons in He as [Hf He].
    destruct (point <=? (f w).2)%Z.
    + intros [= <- <-]. auto.
    + apply IH; auto.
Qed.

Lemma getTask_invariant fuel (env : Env Watched) w r w' env' :
  invariant w.1 -> Forall keeps_invariant env ->
  getTask fuel env w = Some (Ret r (w', env')) ->
  invariant w'.1.
Proof.
  revert env w. induction fuel as [|fuel IH]; intros env [q now] Hi He;
    [done|].
  cbn [getTask]. destruct (_quit q); [by intros [= _ <- _]|].
  destruct (taskIsReady now q).
  { destruct (_queue q) as [|e rest] eqn:Hq; [done|].
    intros [= _ <- _]. by apply pop_invariant. }
  destruct (nearestTask q) as [point|].
  - destruct (cv_wait_until _ point env (q, now)) as [[w1 env1]|] eqn:Hw;
      [|done].
    eapply cv_wait_until_invariant in Hw as [Hi1 He1]; [|done..].
    by apply IH.
  - unfold waitForNotification. simpl.
    destruct (cv_wait _ env (q, now)) as [[w1 env1]|] eqn:Hw; [|done].
    eapply cv_wait_invariant in Hw as [Hi1 He1]; [|done..].
    by apply IH.
Qed.

End QueueFacts.

(** C6.  On a queue that satisfies its invariants: [addTask] returns [false]
    and leaves both maps as they are when the queue has been stopped or
    holds [_maxQueueSize] tasks; a successful [addTask] puts the task with
    its due time into the reverse index and into the due-time order, and it
    notifies the dispatcher exactly when the new entry is the first of the
    order; and [addTask], [rescheduleTask], [stop], [cancelAll] and
    [getTask] all leave a queue in which the order is sorted, both maps hold
    the same pairs and the size is at most [_maxQueueSize]. *)
Theorem Queue_addTask_and_invariants
    (delay : TimerQueue.TaskPtr -> Z) (now : TimerQueue.TimePoint)
    (task : TimerQueue.TaskPtr) (q : TimerQueue.Queue) :
  TimerQueue.invariant q ->
  (TimerQueue._quit q = true
   ∨ TimerQueue._maxQueueSize q ≤ length (TimerQueue._queue q) ->
     TimerQueue.addTask delay now task q = (false, [], q))
  ∧ (∀ signals q',
       TimerQueue.addTask delay now task q = (true, signals, q') ->
       let due := TimerQueue.dueTime delay now task in
       TimerQueue._mapping q !! task = None
       ∧ TimerQueue._mapping q' = <[task := due]> (TimerQueue._mapping q)
       ∧ TimerQueue._queue q' ≡ₚ (due, task) :: TimerQueue._queue q
       ∧ TimerQueue._mapping q' !! task = Some due
       ∧ (due, task) ∈ TimerQueue._queue q'
       ∧ (head (TimerQueue._queue q') = Some (due, task)
            <-> signals = [TimerQueue.NotifyOne])
       ∧ (head (TimerQueue._queue q') ≠ Some (due, task) <-> signals = []))
  ∧ TimerQueue.invariant (TimerQueue.addTask delay now task q).2
  ∧ TimerQueue.invariant (TimerQueue.rescheduleTask delay now task q).2
  ∧ TimerQueue.invariant (TimerQueue.stop q).2
  ∧ TimerQueue.invariant (TimerQueue.cancelAll q).2
  ∧ (∀ fuel env r w' env',
       Forall TimerQueue.keeps_invariant env ->
       TimerQueue.getTask fuel env (q, now) = Some (Guard.Ret r (w', env')) ->
       TimerQueue.invariant w'.1).
Proof.
  intros Hi. split; [apply addTask_rejected|]. split.
  - intros signals q' Hadd due.
    destruct (addTask_accepted delay now task q signals q' Hi Hadd)
      as (_ & _ & Hnone & _ & _ & Hmap & Hperm & Hsig & Hhead & Hi').
    fold due in Hmap, Hperm, Hsig, Hhead.
    assert (Hin : (due, task) ∈ TimerQueue._queue q').
    { rewrite Hperm. by left. }
    assert (Hold : head (TimerQueue._queue q) ≠ Some (due, task)).
    { intros Hh. destruct (TimerQueue._queue q) as [|e l] eqn:Hq; [done|].
      injection Hh as ->.
      assert (Hm : TimerQueue._mapping q !! task = Some due).
      { apply agree_lookup; [apply Hi|]. rewrite Hq. by left. }
      congruence. }
    repeat split; try done.
    + rewrite Hmap. apply lookup_insert_eq.
    + rewrite Hhead, Hsig. by case_bool_decide.
    + rewrite Hhead, Hsig. by case_bool_decide.
    + rewrite Hhead, Hsig. by case_bool_decide.
    + rewrite Hhead, Hsig. by case_bool_decide.
  - split; [by apply addTask_invariant|].
    split; [by apply rescheduleTask_invariant|].
    split; [done|]. split; [done|].
    intros fuel env r w' env' He Hget.
    by apply (getTask_invariant fuel env (q, now) r w' env').
Qed.

Lemma Queue_addTask_and_invariants_witness :
  let delay := fun _ : TimerQueue.TaskPtr => 100%Z in
  let q := (TimerQueue.addTask delay 0%Z 1 (TimerQueue.Queue_new 2)).2 in
  TimerQueue.invariant (TimerQueue.Queue_new 2)
  ∧ TimerQueue.invariant q
  ∧ TimerQueue._queue q = [(100000000%Z, 1)].
Proof.
  intros delay q. split; [apply invariant_new|].
  split; [|vm_compute; reflexivity].
  apply (Queue_addTask_and_invariants delay 0%Z 1 (TimerQueue.Queue_new 2)
           (invariant_new 2)).
Defined.

(* ===================================================================== *)
(** * Properties of the phase machine of a delayed task                   *)
(* ===================================================================== *)

Section WaitFacts.
Import Guard.
Context {W : Type}.
Implicit Types (predicate : W -> bool) (env : Env W) (w : W).

(** A wait ends at the first wake-up at which the predicate holds, and it
    does not end when there is none. *)
Lemma cv_wait_returns predicate env w k :
  predicate (woken k env w) = true ->
  ∃ w' env', cv_wait predicate env w = Some (w', env').
Proof.
  revert w k. induction env as [|f env IH]; intros w k Hk; simpl.
  - unfold woken in Hk. rewrite take_nil in Hk. simpl in Hk.
    rewrite Hk. by eexists _, _.
  - destruct (predicate w) eqn:Hp; [by eexists _, _|].
    destruct k as [|k]; [unfold woken in Hk; simpl in Hk; congruence|].
    by apply (IH (f w) k).
Qed.

Lemma cv_wait_blocks predicate env w :
  (∀ k, predicate (woken k env w) = false) ->
  cv_wait predicate env w = None.
Proof.
  revert w. induction env as [|f env IH]; intros w Hk;
    pose proof (Hk 0) as H0; unfold woken in H0; simpl in *; rewrite H0.
  - done.
  - apply IH. intros k. apply (Hk (S k)).
Qed.

End WaitFacts.

Section DelayedTaskFacts.
Import Guard State DelayedTask.
Implicit Types (w : World) (ph : Phase) (self : ThreadId) (timer : TimerCalls).

Lemma allocated_new : allocated DelayedTask_new.
Proof. unfold allocated. simpl. lia. Qed.

(** A member that returns a new state object has it installed. *)
Lemma call_return_new (call : nat -> World -> Res World Request) w ph :
  allocated w -> call (state w) w = return_new ph w ->
  ∃ w', BaseSwitcher call w = Ret true w'
        ∧ phase w' = Some ph ∧ allocated w'.
Proof.
  unfold allocated, return_new, make_shared. intros Ha Hcall.
  erewrite BaseSwitcher_current; [|exact Hcall|done]. simpl.
  eexists. split; [done|]. unfold phase. simpl.
  split; [apply lookup_insert_eq|lia].
Qed.

(** A member that returns a mere [bool] leaves the cell alone. *)
Lemma call_return_bool (call : nat -> World -> Res World Request) w w1 b :
  call (state w) w = Ret (Request_of_bool b) w1 -> state w1 = state w ->
  BaseSwitcher call w = Ret b w1.
Proof.
  intros Hcall Hst. erewrite BaseSwitcher_current; [|exact Hcall|done].
  simpl. by destruct b.
Qed.

Lemma dispatch_phase {A : Type} w ph (member : Phase -> Res World A) :
  phase w = Some ph -> dispatch (state w) w member = member ph.
Proof. unfold phase, dispatch. by intros ->. Qed.

(** [run] on a waiting task: the calling thread becomes the executor. *)
Lemma run_enters_running self w :
  allocated w -> phase w = Some StateWaiting ->
  ∃ w', Switcher (run_ self) w = Ret true w'
        ∧ phase w' = Some (StateRunning self false) ∧ allocated w'.
Proof.
  intros Ha Hp. apply call_return_new; [done|].
  unfold run_. by rewrite (dispatch_phase w _ _ Hp).
Qed.

(** [restart] on a running task sets the flag in place. *)
Lemma restart_running timer w executor wanted :
  allocated w -> phase w = Some (StateRunning executor wanted) ->
  ∃ w', restart timer w = Ret true w'
        ∧ phase w' = Some (StateRunning executor true) ∧ allocated w'.
Proof.
  intros Ha Hp. eexists. split.
  - apply call_return_bool; [|shelve].
    unfold restart_. rewrite (dispatch_phase w _ _ Hp). reflexivity.
  - unfold phase, allocated. simpl. split; [apply lookup_insert_eq|done].
  Unshelve. done.
Qed.

Lemma body_restarts_running self timer (acts : list BodyAction) w
    executor wanted :
  Forall (fun a => a = BodyRestart) acts ->
  allocated w -> phase w = Some (StateRunning executor wanted) ->
  ∃ w' wanted', body_actions self timer acts w = Ret tt w'
                ∧ phase w' = Some (StateRunning executor wanted')
                ∧ allocated w'.
Proof.
  intros Hacts. revert w wanted.
  induction Hacts as [|a acts -> _ IH]; intros w wanted Ha Hp; simpl.
  - by eexists _, _.
  - destruct (restart_running timer w executor wanted Ha Hp)
      as (w1 & -> & Hp1 & Ha1).
    by apply (IH w1 true).
Qed.

(** [exception] on a running task. *)
Lemma exception_running self timer w executor wanted (e : Exn) :
  allocated w -> phase w = Some (StateRunning executor wanted) ->
  ∃ w', Switcher (exception_ e) w = Ret true w'
        ∧ phase w' = Some (StateException e) ∧ allocated w'.
Proof.
  intros Ha Hp. apply call_return_new; [done|].
  unfold exception_. by rewrite (dispatch_phase w _ _ Hp).
Qed.

(** What each query comes to on a task that ended in an exception. *)
Lemma ask_exception self timer (q : Query) w (e : Exn) :
  phase w = Some (StateException e) ->
  ask self timer q w =
    match q with
    | QCancel _ | QRestart | QIsDone => Throw e w
    | QIsWaiting | QIsRunning | QIsCancelled => Ret false w
    end.
Proof.
  intros Hp. destruct q; simpl.
  - apply BaseSwitcher_throw. unfold cancel_.
    by rewrite (dispatch_phase w _ _ Hp).
  - apply BaseSwitcher_throw. unfold restart_.
    by rewrite (dispatch_phase w _ _ Hp).
  - unfold isWaiting, call_plain, isWaiting_.
    by rewrite (dispatch_phase w _ _ Hp).
  - unfold isDone, call_plain, isDone_.
    by rewrite (dispatch_phase w _ _ Hp).
  - unfold isRunning, call_plain, isRunning_.
    by rewrite (dispatch_phase w _ _ Hp).
  - unfold isCancelled, call_plain, isCancelled_.
    by rewrite (dispatch_phase w _ _ Hp).
Qed.

Lemma after_exception timer (qs : list (ThreadId * Query)) w (e : Exn) :
  phase w = Some (StateException e) -> after qs timer w = w.
Proof.
  intros Hp. induction qs as [|[tid q] qs IH]; simpl; [done|].
  rewrite (ask_exception tid timer q w e Hp). by destruct q.
Qed.

End DelayedTaskFacts.

(** C3, as the code has it.  When the body of a waiting task throws [e]
    without having cancelled its own task, [run] comes back with the task in
    the phase [StateException e].  From then on, whatever is asked of the
    task and by whom, the phase stays [StateException e]; [cancel],
    [restart] and [isDone] rethrow [e], while [isWaiting], [isRunning] and
    [isCancelled] return [false]. *)
Theorem DelayedTask_exception_kept
    (self : ThreadId) (timer : DelayedTask.TimerCalls)
    (acts : list DelayedTask.BodyAction) (e : Exn) (w : DelayedTask.World) :
  DelayedTask.allocated w ->
  DelayedTask.phase w = Some DelayedTask.StateWaiting ->
  Forall (fun a => a = DelayedTask.BodyRestart) acts ->
  ∃ w',
    DelayedTask.run self timer
      {| DelayedTask.actions := acts;
         DelayedTask.outcome := ThreadPool.Throws e |} w = Guard.Ret tt w'
    ∧ DelayedTask.phase w' = Some (DelayedTask.StateException e)
    ∧ ∀ (qs : list (ThreadId * DelayedTask.Query))
        (timer' : DelayedTask.TimerCalls),
        let w'' := DelayedTask.after qs timer' w' in
        DelayedTask.phase w'' = Some (DelayedTask.StateException e)
        ∧ (∀ tid env, DelayedTask.cancel tid env w'' = Guard.Throw e w'')
        ∧ DelayedTask.restart timer' w'' = Guard.Throw e w''
        ∧ DelayedTask.isDone w'' = Guard.Throw e w''
        ∧ DelayedTask.isWaiting w'' = Guard.Ret false w''
        ∧ DelayedTask.isRunning w'' = Guard.Ret false w''
        ∧ DelayedTask.isCancelled w'' = Guard.Ret false w''.
Proof.
  intros Ha Hp Hacts.
  destruct (run_enters_running self w Ha Hp) as (w1 & Hrun & Hp1 & Ha1).
  destruct (body_restarts_running self timer acts w1 self false Hacts Ha1 Hp1)
    as (w2 & wanted & Hbody & Hp2 & Ha2).
  destruct (exception_running self timer w2 self wanted e Ha2 Hp2)
    as (w3 & Hexc & Hp3 & Ha3).
  exists w3. split.
  { unfold DelayedTask.run, DelayedTask.invoke. simpl.
    by rewrite Hrun, Hbody, Hexc. }
  split; [done|]. intros qs timer' w''.
  assert (Hw : w'' = w3) by by apply (after_exception timer' qs w3 e).
  rewrite Hw. split; [done|].
  split; [intros tid env;
          exact (ask_exception tid timer' (DelayedTask.QCancel env) w3 e Hp3)|].
  split; [exact (ask_exception self timer' DelayedTask.QRestart w3 e Hp3)|].
  split; [exact (ask_exception self timer' DelayedTask.QIsDone w3 e Hp3)|].
  split; [exact (ask_exception self timer' DelayedTask.QIsWaiting w3 e Hp3)|].
  split; [exact (ask_exception self timer' DelayedTask.QIsRunning w3 e Hp3)|].
  exact (ask_exception self timer' DelayedTask.QIsCancelled w3 e Hp3).
Qed.

Lemma DelayedTask_exception_kept_witness :
  DelayedTask.allocated DelayedTask.DelayedTask_new
  ∧ DelayedTask.phase DelayedTask.DelayedTask_new
    = Some DelayedTask.StateWaiting
  ∧ Forall (fun a => a = DelayedTask.BodyRestart) [DelayedTask.BodyRestart]
  ∧ ∃ w',
      DelayedTask.run 1 (DelayedTask.mkTimerCalls None None)
        {| DelayedTask.actions := [DelayedTask.BodyRestart];
           DelayedTask.outcome := ThreadPool.Throws 7 |}
        DelayedTask.DelayedTask_new = Guard.Ret tt w'
      ∧ DelayedTask.phase w' = Some (DelayedTask.StateException 7).
Proof.
  split; [apply allocated_new|]. split; [reflexivity|].
  split; [repeat constructor|].
  destruct (DelayedTask_exception_kept 1 (DelayedTask.mkTimerCalls None None)
              [DelayedTask.BodyRestart] 7 DelayedTask.DelayedTask_new
              allocated_new eq_refl
              (Forall_cons_2 _ _ _ eq_refl (Forall_nil_2 _)))
    as (w' & Hrun & Hp & _).
  exists w'. split; [exact Hrun | exact Hp].
Defined.

(** C3 as stated fails for the other status predicates: on a task whose
    body threw, [isWaiting] (and likewise [isRunning] and [isCancelled])
    returns [false] and rethrows nothing. *)
Lemma DelayedTask_isWaiting_does_not_rethrow :
  ∃ w',
    DelayedTask.run 1 (DelayedTask.mkTimerCalls None None)
      {| DelayedTask.actions := [];
         DelayedTask.outcome := ThreadPool.Throws 7 |}
      DelayedTask.DelayedTask_new = Guard.Ret tt w'
    ∧ DelayedTask.phase w' = Some (DelayedTask.StateException 7)
    ∧ DelayedTask.isWaiting w' = Guard.Ret false w'
    ∧ DelayedTask.isRunning w' = Guard.Ret false w'
    ∧ DelayedTask.isCancelled w' = Guard.Ret false w'
    ∧ DelayedTask.isWaiting w' ≠ Guard.Throw 7 w'.
Proof.
  eexists. split; [vm_compute; reflexivity|].
  repeat split; try (vm_compute; reflexivity). discriminate.
Qed.

(** ** The scenarios of the tests, run on the model *)

(** [TEST(State, basic)]: [foo] is false, [oops] is true and swaps, [foo]
    is true. *)
Example State_basic :
  ∃ w1,
    State.call_plain StateTest.foo StateTest.graal
      = Guard.Ret false StateTest.graal
    ∧ State.Switcher StateTest.oops StateTest.graal = Guard.Ret true w1
    ∧ State.call_plain StateTest.foo w1 = Guard.Ret true w1.
Proof. eexists. repeat split; vm_compute; reflexivity. Qed.

(** A body that cancels its own task and then throws leaves the task in the
    phase [StateCancelled]: [exception] is not overridden there. *)
Example cancel_then_throw :
  ∃ w',
    DelayedTask.run 1 (DelayedTask.mkTimerCalls None None)
      {| DelayedTask.actions := [DelayedTask.BodyCancel];
         DelayedTask.outcome := ThreadPool.Throws 7 |}
      DelayedTask.DelayedTask_new = Guard.Ret tt w'
    ∧ DelayedTask.phase w' = Some DelayedTask.StateCancelled
    ∧ DelayedTask.isDone w' = Guard.Ret false w'.
Proof. eexists. repeat split; vm_compute; reflexivity. Qed.

(** Two tasks put in at the same time, the first with the longer delay: the
    second one goes to the front and the dispatcher is notified; a third
    with the delay of the second goes behind it and nobody is notified. *)
Example deadline_ordering :
  let delay := fun task : TimerQueue.TaskPtr =>
                 match task with 1 => 200%Z | _ => 100%Z end in
  let '(_, s1, q1) := TimerQueue.addTask delay 0%Z 1 (TimerQueue.Queue_new 8) in
  let '(_, s2, q2) := TimerQueue.addTask delay 0%Z 2 q1 in
  let '(_, s3, q3) := TimerQueue.addTask delay 0%Z 3 q2 in
  s1 = [TimerQueue.NotifyOne] ∧ s2 = [TimerQueue.NotifyOne] ∧ s3 = []
  ∧ TimerQueue._queue q3
    = [(100000000%Z, 2); (100000000%Z, 3); (200000000%Z, 1)].
Proof. vm_compute. repeat split. Qed.

(* ===================================================================== *)
(** * Further properties of [Defer]                                       *)
(* ===================================================================== *)

Section DeferMoreFacts.
Import Defer.
Context {Callback : Type}.
Variable throws : Callback -> bool.

Lemma pass_called (d : Defer Callback) : called d = true -> pass d = d.
Proof. destruct d as [c b]. simpl. by intros ->. Qed.

(** A consumed [Defer] stays as it is under [run()] and [pass()]. *)
Lemma exec_consumed (ops : list (Op Callback)) (d : Defer Callback)
    (log : list Callback) :
  called d = true -> Forall (fun o => o = OpRun ∨ o = OpPass) ops ->
  exec throws ops d log = FallsOff d log.
Proof.
  intros Hd Hops. induction Hops as [|o ops [-> | ->] _ IH]; simpl; [done|..].
  - by rewrite run_called.
  - by rewrite pass_called.
Qed.

End DeferMoreFacts.

(** X1.  A callback that throws out of [run()] is still pending: the
    destructor that runs while the exception unwinds the scope invokes it a
    second time, and as it throws again the process is terminated.  A scope
    with no [run()] at all invokes it once, from the destructor, and is
    terminated as well. *)
Theorem Defer_throwing_callback_invoked_again {Callback : Type}
    (throws : Callback -> bool) (c : Callback)
    (ops : list (Defer.Op Callback)) :
  throws c = true ->
  Defer.scope throws c (Defer.OpRun :: ops) = ([c; c], true)
  ∧ Defer.scope throws c [] = ([c], true).
Proof.
  intros Hc.
  assert (Hrun : ∀ log, Defer.run throws (Defer.make c) log
                        = Defer.Raised (Defer.make c, log ++ [c])).
  { intros log. unfold Defer.run. simpl. by rewrite Hc. }
  unfold Defer.scope, Defer.destroy. cbn [Defer.exec].
  by rewrite !Hrun.
Qed.

Lemma Defer_throwing_callback_invoked_again_witness :
  (fun _ : nat => true) 7 = true
  ∧ Defer.scope (fun _ : nat => true) 7 [Defer.OpRun; Defer.OpRun]
    = ([7; 7], true).
Proof.
  split; [reflexivity|].
  apply (Defer_throwing_callback_invoked_again (fun _ : nat => true) 7
           [Defer.OpRun] eq_refl).
Defined.

(** X2.  With [run()] and [pass()] as the only calls in the scope and a
    callback that returns, the callback is invoked exactly once unless the
    first call is [pass()], in which case it is never invoked; nothing
    throws. *)
Theorem Defer_invoked_unless_passed_first {Callback : Type}
    (throws : Callback -> bool) (c : Callback)
    (ops : list (Defer.Op Callback)) :
  throws c = false ->
  Forall (fun o => o = Defer.OpRun ∨ o = Defer.OpPass) ops ->
  Defer.scope throws c ops
    = (match ops with
       | Defer.OpPass :: _ => []
       | _ => [c]
       end, false).
Proof.
  intros Hc Hops. unfold Defer.scope.
  destruct Hops as [|o ops [-> | ->] Hops]; simpl.
  - unfold Defer.destroy. by rewrite run_pending.
  - rewrite run_pending by done.
    rewrite (exec_consumed throws ops) by done.
    by rewrite destroy_called.
  - rewrite (exec_consumed throws ops) by done.
    by rewrite destroy_called.
Qed.

Lemma Defer_invoked_unless_passed_first_witness :
  (fun _ : nat => false) 7 = false
  ∧ Forall (fun o : Defer.Op nat => o = Defer.OpRun ∨ o = Defer.OpPass)
      [Defer.OpRun; Defer.OpPass; Defer.OpRun]
  ∧ Defer.scope (fun _ : nat => false) 7
      [Defer.OpRun; Defer.OpPass; Defer.OpRun] = ([7], false).
Proof.
  assert (H : Forall (fun o : Defer.Op nat => o = Defer.OpRun ∨ o = Defer.OpPass)
                [Defer.OpRun; Defer.OpPass; Defer.OpRun]).
  { apply Forall_cons_2; [by left|]. apply Forall_cons_2; [by right|].
    apply Forall_cons_2; [by left|]. apply Forall_nil_2. }
  split; [reflexivity|]. split; [exact H|].
  apply (Defer_invoked_unless_passed_first (fun _ : nat => false) 7
           [Defer.OpRun; Defer.OpPass; Defer.OpRun] eq_refl H).
Defined.

(** X3.  Assigning a callback to a [Defer] whose callback is pending drops
    that callback without invoking it: after [d = c2] the scope invokes [c2]
    once and [c] never.  Assigning a callback to a [Defer] that has run arms
    it again: [c] and then [c2] are invoked, once each. *)
Theorem Defer_assignment_replaces_callback {Callback : Type}
    (throws : Callback -> bool) (c c2 : Callback)
    (runs : list (Defer.Op Callback)) :
  throws c2 = false ->
  Forall (fun o => o = Defer.OpRun) runs ->
  Defer.scope throws c (Defer.OpAssignCallback c2 :: runs) = ([c2], false)
  ∧ (throws c = false ->
     Defer.scope throws c (Defer.OpRun :: Defer.OpAssignCallback c2 :: runs)
       = ([c; c2], false)).
Proof.
  intros Hc2 Hruns. unfold Defer.scope. simpl. split.
  - destruct (exec_runs_destroy throws runs (Defer.make c2) [] eq_refl Hc2 Hruns)
      as (d' & l & He & Hd).
    unfold Defer.assign_callback. unfold Defer.make in He. by rewrite He.
  - intros Hc. rewrite run_pending by done. simpl.
    destruct (exec_runs_destroy throws runs (Defer.make c2) [c] eq_refl Hc2 Hruns)
      as (d' & l & He & Hd).
    unfold Defer.assign_callback. unfold Defer.make in He. by rewrite He.
Qed.

Lemma Defer_assignment_replaces_callback_witness :
  (fun _ : nat => false) 8 = false
  ∧ Forall (fun o : Defer.Op nat => o = Defer.OpRun) [Defer.OpRun]
  ∧ Defer.scope (fun _ : nat => false) 7
      [Defer.OpAssignCallback 8; Defer.OpRun] = ([8], false)
  ∧ Defer.scope (fun _ : nat => false) 7
      [Defer.OpRun; Defer.OpAssignCallback 8; Defer.OpRun] = ([7; 8], false).
Proof.
  split; [reflexivity|]. split; [repeat constructor|].
  destruct (Defer_assignment_replaces_callback (fun _ : nat => false) 7 8
              [Defer.OpRun] eq_refl
              (Forall_cons_2 _ _ _ eq_refl (Forall_nil_2 _))) as [H1 H2].
  split; [exact H1 | exact (H2 eq_refl)].
Defined.

(* ===================================================================== *)
(** * Properties of the lock slot                                         *)
(* ===================================================================== *)

Section GuardLockFacts.
Import Guard GuardLock.
Context {T : Type}.
Implicit Types (o : Notifiable T) (env : Env (Notifiable T)).
Implicit Types (predicate : Notifiable T -> bool).

(** The [Defer] of a wait puts the lock back exactly once. *)
Lemma waitForNotification_locked predicate env o (l : LockPtr) :
  _lock o = Some l ->
  waitForNotification predicate env o =
    match cv_wait predicate env o with
    | Some (o', env') => Ret tt (setSignalableLock (Some l) o', env')
    | None => Block
    end.
Proof.
  intros Hl. unfold waitForNotification. rewrite Hl.
  by destruct (cv_wait predicate env o) as [[o' env']|].
Qed.

Lemma waitForNotification_unlocked predicate env o :
  _lock o = None ->
  waitForNotification predicate env o = Throw logic_error (o, env).
Proof. intros Hl. unfold waitForNotification. by rewrite Hl. Qed.

End GuardLockFacts.

(** X4.  The proxy returned by [lock()] leaves its own lock in the slot of
    the object, not the temporary it was moved from, and the members are
    not touched; when the proxy dies the slot is empty.  After the
    functional [lock(f)] the slot is empty as well, whether [f] returned or
    threw and whatever [f] did to the slot; so a critical section of
    another thread leaves the slot empty behind it. *)
Theorem lock_slot_installed_and_reset {T A : Type}
    (tmp here : GuardLock.LockPtr) (o : GuardLock.Notifiable T)
    (f : GuardLock.Notifiable T -> Guard.Res (GuardLock.Notifiable T) A) :
  GuardLock._lock (GuardLock.lock_proxy tmp here o).2 = Some here
  ∧ GuardLock.members (GuardLock.lock_proxy tmp here o).2 = GuardLock.members o
  ∧ (∀ o' : GuardLock.Notifiable T,
       GuardLock._lock
         (GuardLock.Proxy_destroy (GuardLock.lock_proxy tmp here o).1 o')
       = None)
  ∧ match GuardLock.lock here f o with
    | Guard.Ret _ o' | Guard.Throw _ o' => GuardLock._lock o' = None
    | Guard.Block => True
    end
  ∧ (∀ that g, GuardLock._lock (GuardLock.critical_section that g o) = None
               ∧ GuardLock.members (GuardLock.critical_section that g o)
                 = GuardLock.members (g (GuardLock.setSignalableLock
                                           (Some that) o))).
Proof.
  split; [done|]. split; [done|]. split; [done|]. split; [|done].
  unfold GuardLock.lock. simpl.
  by destruct (f _).
Qed.

(** X5.  A wait on an object whose slot is empty throws [logic_error] and
    touches nothing.  A wait on an object whose slot holds a lock never
    throws, and when it returns, the slot holds that lock again, whatever
    the other threads left there in the meantime; so another wait can
    follow it. *)
Theorem wait_keeps_lock_slot {T : Type}
    (predicate : GuardLock.Notifiable T -> bool)
    (env : Guard.Env (GuardLock.Notifiable T)) (o : GuardLock.Notifiable T) :
  (GuardLock._lock o = None ->
     GuardLock.waitForNotification predicate env o
       = Guard.Throw Guard.logic_error (o, env))
  ∧ (∀ l, GuardLock._lock o = Some l ->
       (∀ e s, GuardLock.waitForNotification predicate env o ≠ Guard.Throw e s)
       ∧ ∀ o' env',
           GuardLock.waitForNotification predicate env o
             = Guard.Ret tt (o', env') ->
           GuardLock._lock o' = Some l
           ∧ ∀ predicate' env'' e s,
               GuardLock.waitForNotification predicate' env'' o'
                 ≠ Guard.Throw e s).
Proof.
  split; [apply waitForNotification_unlocked|].
  intros l Hl. rewrite (waitForNotification_locked predicate env o l Hl).
  split.
  - intros e s. by destruct (Guard.cv_wait predicate env o) as [[o1 env1]|].
  - intros o' env'.
    destruct (Guard.cv_wait predicate env o) as [[o1 env1]|]; [|done].
    intros [= <- <-]. split; [done|].
    intros predicate' env'' e s.
    rewrite (waitForNotification_locked predicate' env''
               (GuardLock.setSignalableLock (Some l) o1) l eq_refl).
    by destruct (Guard.cv_wait predicate' env'' _) as [[o2 env2]|].
Qed.

(* ===================================================================== *)
(** * Further properties of the worker pool                               *)
(* ===================================================================== *)

Section ThreadPoolMoreFacts.
Import Guard ThreadPool.
Implicit Types (q : TaskQueue) (task : Task) (env : Env TaskQueue).

(** A running queue with a task in it hands out its first task without
    waiting. *)
Lemma getTask_head fuel env q task rest :
  _quit q = false -> _queue q = task :: rest ->
  getTask (S fuel) env q
    = Some (Ret task ({| _quit := false; _queue := rest |}, env)).
Proof.
  intros Hquit Hqueue. cbn [getTask]. rewrite Hquit.
  unfold waitForNotification; simpl.
  assert (Hp : quit_or_nonempty q = true).
  { unfold quit_or_nonempty. rewrite Hqueue.
    by rewrite bool_decide_eq_false_2, orb_true_r. }
  destruct env; simpl; rewrite Hp, Hqueue, Hquit; done.
Qed.

(** What a worker forwards for a list of callables. *)
Lemma run_drains (h : Exn -> Body) (cs : list Callable) fuel env q tr :
  (∀ e, h e = Returns) ->
  _quit q = false -> _queue q = Some <$> cs ->
  run (length cs + fuel) (Some h) env q tr
    = run fuel (Some h) env {| _quit := false; _queue := [] |}
        {| invoked := invoked tr ++ cs;
           forwarded :=
             forwarded tr
             ++ omap (fun c => match body c with
                               | Throws e => Some e
                               | Returns => None
                               end) cs |}.
Proof.
  intros Hh. revert q tr.
  induction cs as [|c cs IH]; intros q tr Hquit Hqueue.
  - simpl. rewrite !app_nil_r. destruct q as [qt qq]. simpl in *.
    subst. by destruct tr.
  - cbn [length Nat.add run].
    rewrite (getTask_head _ env q (Some c) _ Hquit Hqueue).
    unfold run_task.
    destruct (body c) as [|e] eqn:Hb.
    + rewrite IH by done. simpl. rewrite Hb.
      by rewrite <- !app_assoc.
    + rewrite Hh. rewrite IH by done. simpl. rewrite Hb.
      by rewrite <- !app_assoc.
Qed.

End ThreadPoolMoreFacts.

(** X6.  A worker with a handler that returns works through the queue in
    the order in which the tasks were put in: it invokes every callable
    once, first in first out, hands the exception of each one that throws to
    the handler, in that order, and goes on.  With the queue empty it waits;
    when [stop] wakes it up it leaves its loop. *)
Theorem worker_runs_queue_in_order
    (h : Exn -> ThreadPool.Body) (cs : list ThreadPool.Callable)
    (fuel : nat) (q : ThreadPool.TaskQueue) (tr : ThreadPool.Trace) :
  (∀ e, h e = ThreadPool.Returns) ->
  ThreadPool._quit q = false ->
  ThreadPool._queue q = Some <$> cs ->
  length cs + 2 ≤ fuel ->
  let tr' :=
    {| ThreadPool.invoked := ThreadPool.invoked tr ++ cs;
       ThreadPool.forwarded :=
         ThreadPool.forwarded tr
         ++ omap (fun c => match ThreadPool.body c with
                           | ThreadPool.Throws e => Some e
                           | ThreadPool.Returns => None
                           end) cs |} in
  ThreadPool.run fuel (Some h) [] q tr
    = Some (ThreadPool.Waits, tr',
            {| ThreadPool._quit := false; ThreadPool._queue := [] |})
  ∧ ThreadPool.run fuel (Some h) [fun q => (ThreadPool.stop q).2] q tr
    = Some (ThreadPool.Finished, tr',
            {| ThreadPool._quit := true; ThreadPool._queue := [] |}).
Proof.
  intros Hh Hquit Hqueue Hfuel tr'.
  destruct (Nat.le_exists_sub _ _ Hfuel) as (k & -> & _).
  replace (k + (length cs + 2)) with (length cs + S (S k)) by lia.
  split; rewrite (run_drains h cs) by done; reflexivity.
Qed.

Lemma worker_runs_queue_in_order_witness :
  let h := fun _ : Exn => ThreadPool.Returns in
  let c1 := ThreadPool.mkCallable 1 (ThreadPool.Throws 5) in
  let c2 := ThreadPool.mkCallable 2 ThreadPool.Returns in
  let q := ThreadPool.mkTaskQueue false [Some c1; Some c2] in
  (∀ e, h e = ThreadPool.Returns)
  ∧ ThreadPool._quit q = false
  ∧ ThreadPool._queue q = Some <$> [c1; c2]
  ∧ length [c1; c2] + 2 ≤ 4
  ∧ ThreadPool.run 4 (Some h) [] q ThreadPool.Trace_empty
    = Some (ThreadPool.Waits, ThreadPool.mkTrace [c1; c2] [5],
            ThreadPool.mkTaskQueue false []).
Proof.
  intros h c1 c2 q.
  split; [reflexivity|]. split; [reflexivity|]. split; [reflexivity|].
  split; [simpl; lia|].
  apply (worker_runs_queue_in_order h [c1; c2] 4 q ThreadPool.Trace_empty
           (fun _ => eq_refl) eq_refl eq_refl (le_n 4)).
Defined.

(** X7.  A worker that waits on an empty running queue: when it is woken up
    and finds a task, it takes that task, also if the queue has been stopped
    in the meantime; when it is woken up by [stop] and finds no task, it
    gets the empty task; and with no wake-up it does not return. *)
Theorem waiting_worker_woken
    (fuel : nat) (q : ThreadPool.TaskQueue)
    (others : ThreadPool.TaskQueue -> ThreadPool.TaskQueue)
    (env : Guard.Env ThreadPool.TaskQueue) :
  ThreadPool._quit q = false ->
  ThreadPool._queue q = [] ->
  (∀ task rest,
     ThreadPool._queue (others q) = task :: rest ->
     ThreadPool.getTask (S fuel) (others :: env) q
       = Some (Guard.Ret task
                 ({| ThreadPool._quit := ThreadPool._quit (others q);
                     ThreadPool._queue := rest |}, env)))
  ∧ (ThreadPool._queue (others q) = [] ->
     ThreadPool._quit (others q) = true ->
     ThreadPool.getTask (S (S fuel)) (others :: env) q
       = Some (Guard.Ret None (others q, env)))
  ∧ ThreadPool.getTask (S fuel) [] q = Some Guard.Block.
Proof.
  intros Hquit Hqueue.
  assert (Hp : ThreadPool.quit_or_nonempty q = false).
  { unfold ThreadPool.quit_or_nonempty. rewrite Hquit, Hqueue.
    by rewrite bool_decide_eq_true_2. }
  split; [|split].
  - intros task rest Hq'.
    assert (Hp' : ThreadPool.quit_or_nonempty (others q) = true).
    { unfold ThreadPool.quit_or_nonempty. rewrite Hq'.
      by rewrite bool_decide_eq_false_2, orb_true_r. }
    cbn [ThreadPool.getTask]. rewrite Hquit.
    unfold Guard.waitForNotification; simpl. rewrite Hp.
    destruct env; simpl; rewrite Hp', Hq'; done.
  - intros Hq' Hquit'.
    assert (Hp' : ThreadPool.quit_or_nonempty (others q) = true).
    { unfold ThreadPool.quit_or_nonempty. by rewrite Hquit'. }
    cbn [ThreadPool.getTask]. rewrite Hquit.
    unfold Guard.waitForNotification; simpl. rewrite Hp.
    destruct env; simpl; rewrite Hp', Hq', Hquit'; done.
  - cbn [ThreadPool.getTask]. rewrite Hquit.
    unfold Guard.waitForNotification; simpl. by rewrite Hp.
Qed.

Lemma waiting_worker_woken_witness :
  let c := ThreadPool.mkCallable 1 ThreadPool.Returns in
  let add_then_stop := fun q : ThreadPool.TaskQueue =>
    (ThreadPool.stop (ThreadPool.addTask (Some c) q).2).2 in
  ThreadPool._quit ThreadPool.TaskQueue_new = false
  ∧ ThreadPool._queue ThreadPool.TaskQueue_new = []
  ∧ ThreadPool.getTask 1 [add_then_stop] ThreadPool.TaskQueue_new
    = Some (Guard.Ret (Some c) (ThreadPool.mkTaskQueue true [], [])).
Proof.
  intros c add_then_stop. split; [reflexivity|]. split; [reflexivity|].
  exact (proj1 (waiting_worker_woken 0 ThreadPool.TaskQueue_new
                  add_then_stop [] eq_refl eq_refl) (Some c) [] eq_refl).
Defined.

(* ===================================================================== *)
(** * Further properties of the due-time queue                            *)
(* ===================================================================== *)

Section QueueMoreFacts.
Import Guard TimerQueue.
Variable delay : TaskPtr -> Z.
Implicit Types (q : Queue) (task : TaskPtr) (now due : TimePoint).
Implicit Types (l : list Entry).

(** Where [emplace] puts the new element. *)
Lemma emplace_split (k : TimePoint) (v : TaskPtr) l :
  ∃ l1 l2, l = l1 ++ l2
           ∧ (emplace k v l).2 = l1 ++ (k, v) :: l2
           ∧ Forall (fun e => (e.1 <= k)%Z) l1
           ∧ match l2 with [] => True | e :: _ => (k < e.1)%Z end.
Proof.
  induction l as [|e l IH].
  - by exists [], [].
  - cbn [emplace]. destruct (Z.leb_spec e.1 k) as [Hle|Hlt].
    + destruct IH as (l1 & l2 & -> & He & Hall & Hl2).
      destruct (emplace k v (l1 ++ l2)) as [i r]; simpl in *. subst r.
      exists (e :: l1), l2. repeat split; try done. by constructor.
    + exists [], (e :: l). repeat split; try done.
Qed.

(** No task sits in the queue twice. *)
Lemma agree_NoDup q : agree q -> NoDup ((_queue q).*2).
Proof.
  unfold agree. intros Ha.
  assert (H2 : (_queue q).*2 = (prod_swap <$> _queue q).*1).
  { rewrite <- list_fmap_compose. apply list_fmap_ext. by intros ? []. }
  rewrite H2, <- Ha. apply NoDup_fst_map_to_list.
Qed.

(** [rescheduleTask] step by step. *)
Lemma rescheduleTask_unfold now task q signals q' :
  invariant q ->
  rescheduleTask delay now task q = (true, signals, q') ->
  let due := dueTime delay now task in
  ∃ old,
    let queue1 := erase_in_range old task (_queue q) in
    _mapping q !! task = Some old
    ∧ _queue q ≡ₚ (old, task) :: queue1
    ∧ _queue q' ≡ₚ (due, task) :: queue1
    ∧ _mapping q' = <[task := due]> (_mapping q)
    ∧ signals = (if bool_decide (Forall (fun e => (due < e.1)%Z) queue1)
                 then [NotifyOne] else [])
    ∧ head (_queue q')
      = (if bool_decide (Forall (fun e => (due < e.1)%Z) queue1)
         then Some (due, task) else head queue1).
Proof.
  intros (Ho & Ha & Hb) Hre due. unfold rescheduleTask in Hre.
  destruct (_quit q) eqn:Hq; [done|].
  destruct (_mapping q !! task) as [old|] eqn:Hm; [|done]. fold due in Hre.
  pose proof (proj1 (agree_lookup q task old Ha) Hm) as Hin.
  pose proof (erase_in_range_perm old task (_queue q) Ho Hin) as Hperm1.
  pose proof (erase_in_range_sorted old task (_queue q) Ho) as Ho1.
  match type of Hre with
  | (let '(_, _) := placeTask _ _ ?q1 in _) = _ =>
      destruct (placeTask_spec due task q1 Ho1)
        as (q2 & Hpl & Hq2 & Hmax & Hmap & Hperm & Hhead & Ho2)
  end.
  rewrite Hpl in Hre. simpl in *. injection Hre as <- <-.
  by exists old.
Qed.

End QueueMoreFacts.

(** X8.  The timer's [addTask] returns [false] exactly when the queue has
    been stopped, or holds [_maxQueueSize] entries, or already holds the
    task; in each of these cases both maps stay as they are and nobody is
    notified. *)
Theorem Queue_addTask_false_iff
    (delay : TimerQueue.TaskPtr -> Z) (now : TimerQueue.TimePoint)
    (task : TimerQueue.TaskPtr) (q : TimerQueue.Queue) :
  ((TimerQueue.addTask delay now task q).1.1 = false
     <-> TimerQueue._quit q = true
         ∨ TimerQueue._maxQueueSize q ≤ length (TimerQueue._queue q)
         ∨ is_Some (TimerQueue._mapping q !! task))
  ∧ ((TimerQueue.addTask delay now task q).1.1 = false ->
       TimerQueue.addTask delay now task q = (false, [], q)).
Proof.
  unfold TimerQueue.addTask.
  destruct (TimerQueue._quit q) eqn:Hq; simpl.
  { split; [split; auto|done]. }
  destruct (Nat.leb_spec (TimerQueue._maxQueueSize q)
              (length (TimerQueue._queue q))) as [Hle|Hlt].
  { split; [split; auto|done]. }
  destruct (TimerQueue._mapping q !! task) as [d|] eqn:Hm.
  { split; [split; eauto|done]. }
  destruct (TimerQueue.placeTask _ _ _) as [s q2]. simpl.
  split; [|done]. split; [done|].
  intros [?|[?|[? ?]]]; [done|lia|done].
Qed.

(** X9.  [rescheduleTask] returns [false] exactly when the queue has been
    stopped or does not hold the task, and then both maps stay as they are
    and nobody is notified. *)
Theorem Queue_rescheduleTask_false_iff
    (delay : TimerQueue.TaskPtr -> Z) (now : TimerQueue.TimePoint)
    (task : TimerQueue.TaskPtr) (q : TimerQueue.Queue) :
  ((TimerQueue.rescheduleTask delay now task q).1.1 = false
     <-> TimerQueue._quit q = true ∨ TimerQueue._mapping q !! task = None)
  ∧ ((TimerQueue.rescheduleTask delay now task q).1.1 = false ->
       TimerQueue.rescheduleTask delay now task q = (false, [], q)).
Proof.
  unfold TimerQueue.rescheduleTask.
  destruct (TimerQueue._quit q) eqn:Hq; simpl.
  { split; [split; auto|done]. }
  destruct (TimerQueue._mapping q !! task) as [d|] eqn:Hm.
  2:{ split; [split; auto|done]. }
  destruct (TimerQueue.placeTask _ _ _) as [s q2]. simpl.
  split; [|done]. split; [done|]. by intros [?|?].
Qed.

(** X10.  A successful [addTask] leaves the entries that were in the queue
    in their order and puts the new one behind every entry that is due at
    the same time or earlier and in front of every entry that is due later:
    tasks due at the same time are served in the order of their
    insertion. *)
Theorem Queue_addTask_keeps_order
    (delay : TimerQueue.TaskPtr -> Z) (now : TimerQueue.TimePoint)
    (task : TimerQueue.TaskPtr) (q q' : TimerQueue.Queue)
    (signals : list TimerQueue.Signal) :
  TimerQueue.invariant q ->
  TimerQueue.addTask delay now task q = (true, signals, q') ->
  let due := TimerQueue.dueTime delay now task in
  ∃ l1 l2,
    TimerQueue._queue q = l1 ++ l2
    ∧ TimerQueue._queue q' = l1 ++ (due, task) :: l2
    ∧ Forall (fun e => (e.1 <= due)%Z) l1
    ∧ Forall (fun e => (due < e.1)%Z) l2.
Proof.
  intros (Ho & _ & _) Hadd due. unfold TimerQueue.addTask in Hadd.
  destruct (_ || _); [done|].
  destruct (TimerQueue._mapping q !! task); [done|]. fold due in Hadd.
  unfold TimerQueue.placeTask in Hadd. simpl in Hadd.
  destruct (emplace_split due task (TimerQueue._queue q))
    as (l1 & l2 & Hq & He & Hl1 & Hl2).
  destruct (TimerQueue.emplace due task (TimerQueue._queue q)) as [i r].
  simpl in He. injection Hadd as <- <-. simpl.
  exists l1, l2. repeat split; try done.
  unfold TimerQueue.ordered in Ho. rewrite Hq, fmap_app in Ho.
  apply StronglySorted_app_1_r in Ho.
  destruct l2 as [|e l2]; [done|].
  rewrite fmap_cons in Ho. apply StronglySorted_cons in Ho as [Hall _].
  constructor; [done|]. rewrite Forall_fmap in Hall.
  eapply Forall_impl; [exact Hall|]. intros; keys_lia.
Qed.

Lemma Queue_addTask_keeps_order_witness :
  let delay := fun _ : TimerQueue.TaskPtr => 100%Z in
  let q := (TimerQueue.addTask delay 0%Z 1 (TimerQueue.Queue_new 4)).2 in
  let q' := (TimerQueue.addTask delay 0%Z 2 q).2 in
  TimerQueue.invariant q
  ∧ TimerQueue.addTask delay 0%Z 2 q = (true, [], q')
  ∧ ∃ l1 l2,
      TimerQueue._queue q = l1 ++ l2
      ∧ TimerQueue._queue q' = l1 ++ (100000000%Z, 2) :: l2
      ∧ Forall (fun e => (e.1 <= 100000000)%Z) l1
      ∧ Forall (fun e => (100000000 < e.1)%Z) l2.
Proof.
  intros delay q q'.
  assert (Hi : TimerQueue.invariant q).
  { apply (addTask_invariant delay 0%Z 1 _ (invariant_new 4)). }
  split; [exact Hi|]. split; [reflexivity|].
  apply (Queue_addTask_keeps_order delay 0%Z 2 q q' [] Hi eq_refl).
Defined.

(** X11.  A successful [rescheduleTask] changes the entry of that one task
    and nothing else: the queue holds the same tasks as before, as many as
    before, every other task keeps its due time in both maps, and the
    dispatcher is notified exactly when the rescheduled entry is now the
    first of the order. *)
Theorem Queue_rescheduleTask_moves_one_entry
    (delay : TimerQueue.TaskPtr -> Z) (now : TimerQueue.TimePoint)
    (task : TimerQueue.TaskPtr) (q q' : TimerQueue.Queue)
    (signals : list TimerQueue.Signal) :
  TimerQueue.invariant q ->
  TimerQueue.rescheduleTask delay now task q = (true, signals, q') ->
  let due := TimerQueue.dueTime delay now task in
  (TimerQueue._queue q').*2 ≡ₚ (TimerQueue._queue q).*2
  ∧ length (TimerQueue._queue q') = length (TimerQueue._queue q)
  ∧ (∀ other, other ≠ task ->
       TimerQueue._mapping q' !! other = TimerQueue._mapping q !! other)
  ∧ (∀ d other, other ≠ task ->
       (d, other) ∈ TimerQueue._queue q' <-> (d, other) ∈ TimerQueue._queue q)
  ∧ (signals = [TimerQueue.NotifyOne]
       <-> head (TimerQueue._queue q') = Some (due, task))
  ∧ (signals = [] <-> head (TimerQueue._queue q') ≠ Some (due, task)).
Proof.
  intros Hi Hre due.
  destruct (rescheduleTask_unfold delay now task q signals q' Hi Hre)
    as (old & Hm & Hp & Hp' & Hmap & Hsig & Hhead).
  fold due in Hp', Hmap, Hsig, Hhead.
  destruct (rescheduleTask_accepted delay now task q signals q' Hi Hre)
    as (_ & _ & _ & _ & _ & _ & _ & _ & Hi').
  set (queue1 := TimerQueue.erase_in_range old task (TimerQueue._queue q))
    in *.
  assert (Hnotin : ∀ d, (d, task) ∉ queue1).
  { intros d Hin.
    pose proof (agree_NoDup q' (proj1 (proj2 Hi'))) as Hnd.
    rewrite Hp', fmap_cons in Hnd. apply NoDup_cons in Hnd as [Hn _].
    apply Hn. simpl. apply list_elem_of_fmap. by exists (d, task). }
  assert (Hh1 : head queue1 ≠ Some (due, task)).
  { intros Hh. destruct queue1 as [|e l] eqn:Hq1; [done|].
    injection Hh as ->. apply (Hnotin due). by left. }
  split; [by rewrite Hp, Hp'|]. split; [by rewrite Hp, Hp'|].
  split; [intros other Hne; rewrite Hmap; by apply lookup_insert_ne|].
  split.
  { intros d other Hne. rewrite Hp, Hp'. rewrite !elem_of_cons.
    split; (intros [[= _ ?]|?]; [done|by right]). }
  rewrite Hsig, Hhead. by case_bool_decide.
Qed.

Lemma Queue_rescheduleTask_moves_one_entry_witness :
  let delay := fun _ : TimerQueue.TaskPtr => 100%Z in
  let q := (TimerQueue.addTask delay 0%Z 1 (TimerQueue.Queue_new 4)).2 in
  let q' := (TimerQueue.rescheduleTask delay 30%Z 1 q).2 in
  TimerQueue.invariant q
  ∧ TimerQueue.rescheduleTask delay 30%Z 1 q
    = (true, [TimerQueue.NotifyOne], q')
  ∧ length (TimerQueue._queue q') = length (TimerQueue._queue q).
Proof.
  intros delay q q'.
  assert (Hi : TimerQueue.invariant q).
  { apply (addTask_invariant delay 0%Z 1 _ (invariant_new 4)). }
  split; [exact Hi|]. split; [reflexivity|].
  apply (Queue_rescheduleTask_moves_one_entry delay 30%Z 1 q q'
           [TimerQueue.NotifyOne] Hi eq_refl).
Defined.

Section QueueStoppedFacts.
Import Guard TimerQueue TimerQueueOps.
Variable delay : TaskPtr -> Z.

Lemma getTask_stopped_queue fuel (env : Env Watched) (q : Queue)
    (now : TimePoint) :
  _quit q = true ->
  getTask (S fuel) env (q, now) = Some (Ret None ((q, now), env)).
Proof. intros Hq. simpl. by rewrite Hq. Qed.

Lemma apply_op_stopped_queue (q : Queue) (op : Op) :
  _quit q = true -> apply_op delay q op = q.
Proof.
  intros Hq. destruct op as [now task|now task| | |fuel env now]; simpl.
  - by rewrite addTask_rejected by auto.
  - by rewrite rescheduleTask_rejected by auto.
  - destruct q; simpl in *. by subst.
  - done.
  - destruct fuel; [done|]. by rewrite getTask_stopped_queue.
Qed.

End QueueStoppedFacts.

(** X12.  Once [stop] has been called the queue of the timer is frozen:
    whatever operations follow, both maps and the flag stay as [stop] left
    them; [getTask] returns the null pointer at once, without waiting and
    without taking an entry out, and [addTask] and [rescheduleTask] return
    [false]. *)
Theorem Queue_frozen_after_stop
    (delay : TimerQueue.TaskPtr -> Z) (q : TimerQueue.Queue)
    (ops : list TimerQueueOps.Op) (fuel : nat)
    (env : Guard.Env TimerQueue.Watched) (now : TimerQueue.TimePoint)
    (task : TimerQueue.TaskPtr) :
  let stopped := (TimerQueue.stop q).2 in
  let q' := foldl (TimerQueueOps.apply_op delay) stopped ops in
  q' = stopped
  ∧ TimerQueue._queue q' = TimerQueue._queue q
  ∧ TimerQueue._mapping q' = TimerQueue._mapping q
  ∧ TimerQueue.getTask (S fuel) env (q', now)
    = Some (Guard.Ret None ((q', now), env))
  ∧ TimerQueue.addTask delay now task q' = (false, [], q')
  ∧ TimerQueue.rescheduleTask delay now task q' = (false, [], q').
Proof.
  intros stopped q'.
  assert (Hq' : q' = stopped).
  { unfold q'. induction ops as [|op ops IH] using rev_ind; [done|].
    rewrite foldl_app. simpl. rewrite IH.
    by apply apply_op_stopped_queue. }
  rewrite Hq'. split; [done|]. split; [done|]. split; [done|].
  split; [by apply getTask_stopped_queue|].
  split; [by apply addTask_rejected; left|].
  by apply rescheduleTask_rejected; left.
Qed.

Section GetTaskFacts.
Import Guard TimerQueue.


End GetTaskFacts.



(** X14.  The dispatcher gets the first entry of a running queue at once
    when it is due; when it is not, and the wake-up that follows finds the
    same queue with the clock at or past the due time, it gets the entry at
    that wake-up.  In both cases the entry leaves both maps. *)
Theorem Queue_getTask_fires_when_due
    (fuel : nat) (env : Guard.Env TimerQueue.Watched)
    (q : TimerQueue.Queue) (now : TimerQueue.TimePoint)
    (due : TimerQueue.TimePoint) (task : TimerQueue.TaskPtr)
    (rest : list TimerQueue.Entry) :
  TimerQueue._quit q = false ->
  TimerQueue._queue q = (due, task) :: rest ->
  let popped :=
    {| TimerQueue._quit := false;
       TimerQueue._maxQueueSize := TimerQueue._maxQueueSize q;
       TimerQueue._queue := rest;
       TimerQueue._mapping := delete task (TimerQueue._mapping q) |} in
  ((due <= now)%Z ->
     TimerQueue.getTask (S fuel) env (q, now)
       = Some (Guard.Ret (Some task) ((popped, now), env)))
  ∧ (∀ others now',
       (now < due)%Z -> others (q, now) = (q, now') -> (due <= now')%Z ->
       TimerQueue.getTask (S (S fuel)) (others :: env) (q, now)
         = Some (Guard.Ret (Some task) ((popped, now'), env))).
Proof.
  intros Hquit Hqueue popped.
  assert (Hready : ∀ t, TimerQueue.taskIsReady t q = (due <=? t)%Z).
  { intros t. unfold TimerQueue.taskIsReady, TimerQueue.nearestTask.
    by rewrite Hqueue. }
  assert (Hpop : ∀ k e t, (due <= t)%Z ->
            TimerQueue.getTask (S k) e (q, t)
              = Some (Guard.Ret (Some task) ((popped, t), e))).
  { intros k e t Ht. cbn [TimerQueue.getTask].
    rewrite Hquit, Hready, (proj2 (Z.leb_le _ _) Ht), Hqueue. done. }
  split; [apply Hpop|].
  intros others now' Hlt Hstep Hdue. cbn [TimerQueue.getTask].
  rewrite Hquit, Hready, (proj2 (Z.leb_gt _ _) Hlt).
  unfold TimerQueue.nearestTask at 1. rewrite Hqueue.
  cbn [TimerQueue.cv_wait_until fst snd]. rewrite Hquit, Hready.
  rewrite (proj2 (Z.leb_gt _ _) Hlt). simpl. rewrite Hstep. simpl.
  rewrite (proj2 (Z.leb_le _ _) Hdue).
  by apply Hpop.
Qed.

Lemma Queue_getTask_fires_when_due_witness :
  let delay := fun _ : TimerQueue.TaskPtr => 100%Z in
  let q := (TimerQueue.addTask delay 0%Z 1 (TimerQueue.Queue_new 4)).2 in
  let tick := fun w : TimerQueue.Watched => (w.1, 120000000%Z) in
  TimerQueue._quit q = false
  ∧ TimerQueue._queue q = (100000000%Z, 1) :: []
  ∧ ∃ w', TimerQueue.getTask 2 [tick] (q, 50000000%Z)
            = Some (Guard.Ret (Some 1) (w', []))
          ∧ w'.2 = 120000000%Z.
Proof.
  intros delay q tick. split; [reflexivity|]. split; [reflexivity|].
  eexists. split.
  - apply (proj2 (Queue_getTask_fires_when_due 0 [] q 50000000%Z 100000000%Z
                    1 [] eq_refl eq_refl) tick 120000000%Z);
      [reflexivity | reflexivity | discriminate].
  - reflexivity.
Defined.

(* ===================================================================== *)
(** * Further properties of the phase machine of a delayed task           *)
(* ===================================================================== *)

Section DelayedTaskMoreFacts.
Import Guard State DelayedTask.
Implicit Types (w : World) (ph : Phase) (self : ThreadId) (timer : TimerCalls).

(** A member that keeps the default of [State] changes nothing. *)
Lemma call_return_default (call : nat -> World -> Res World Request) w :
  call (state w) w = return_default w -> BaseSwitcher call w = Ret false w.
Proof. intros Hcall. by apply call_return_bool. Qed.

(** An exception or a wait without end comes from the member. *)
Lemma BaseSwitcher_throw_inv (call : nat -> World -> Res World Request)
    w (e : Exn) w' :
  BaseSwitcher call w = Throw e w' -> call (state w) w = Throw e w'.
Proof.
  unfold BaseSwitcher.
  destruct (call (state w) w) as [req w1|e1 w1|] eqn:Hc.
  - case_bool_decide; [done|]. by destruct (result req), (newState req).
  - by intros [= -> ->].
  - done.
Qed.

Lemma run__no_throw self p w (e : Exn) w' : run_ self p w ≠ Throw e w'.
Proof.
  unfold run_, dispatch, return_new, return_default.
  destruct (objects (rest w) !! p) as [[]|]; done.
Qed.

Lemma done__no_throw timer p w (e : Exn) w' : done_ timer p w ≠ Throw e w'.
Proof.
  unfold done_, dispatch, return_new, return_default.
  destruct (objects (rest w) !! p) as [[| ? [] | | |]|]; try done.
  by destruct (start timer) as [[]|].
Qed.

Lemma exception__no_throw (ptr : Exn) p w (e : Exn) w' :
  exception_ ptr p w ≠ Throw e w'.
Proof.
  unfold exception_, dispatch, return_new, return_default.
  destruct (objects (rest w) !! p) as [[]|]; done.
Qed.

(** [run] on a task that is not waiting. *)
Lemma run_not_waiting self w ph :
  phase w = Some ph -> ph ≠ StateWaiting ->
  Switcher (run_ self) w = Ret false w.
Proof.
  intros Hp Hne. apply call_return_default.
  unfold run_. rewrite (dispatch_phase w _ _ Hp). by destruct ph.
Qed.

(** [cancel] on a task that waits or is done. *)
Lemma cancel_waiting_or_done self (env : Env World) w ph :
  allocated w -> phase w = Some ph -> ph = StateWaiting ∨ ph = StateDone ->
  ∃ w', cancel self env w = Ret true w'
        ∧ phase w' = Some StateCancelled ∧ allocated w'.
Proof.
  intros Ha Hp Hph. apply call_return_new; [done|].
  unfold cancel_. rewrite (dispatch_phase w _ _ Hp).
  by destruct Hph as [-> | ->].
Qed.

(** [cancel] on a running task, on the executor thread and elsewhere. *)
Lemma cancel_running_executor executor wanted (env : Env World) w :
  allocated w -> phase w = Some (StateRunning executor wanted) ->
  ∃ w', cancel executor env w = Ret true w'
        ∧ phase w' = Some StateCancelled ∧ allocated w'.
Proof.
  intros Ha Hp. apply call_return_new; [done|].
  unfold cancel_. rewrite (dispatch_phase w _ _ Hp).
  by rewrite bool_decide_eq_true_2.
Qed.

Lemma cancel_running_other self executor wanted (env : Env World) w
    (b : bool) w' :
  phase w = Some (StateRunning executor wanted) -> self ≠ executor ->
  cancel self env w = Ret b w' -> b = false.
Proof.
  intros Hp Hne. unfold cancel, SwitcherChanged, BaseSwitcher.
  unfold cancel_ at 1. rewrite (dispatch_phase w _ _ Hp).
  rewrite bool_decide_eq_false_2 by (intros Heq; by apply Hne).
  unfold waitForNotification. simpl. unfold World in *.
  destruct (cv_wait _ env w) as [[w1 env1]|] eqn:Hw; [|done].
  apply cv_wait_holds in Hw. unfold StateChanged in Hw.
  simpl. rewrite Hw. by intros [= <- _].
Qed.

(** What each query comes to on a cancelled task. *)
Lemma ask_cancelled self timer (q : Query) w :
  phase w = Some StateCancelled ->
  ask self timer q w =
    Ret (match q with QIsCancelled => true | _ => false end) w.
Proof.
  intros Hp. destruct q; simpl.
  - apply call_return_default. unfold cancel_.
    by rewrite (dispatch_phase w _ _ Hp).
  - apply call_return_default. unfold restart_.
    by rewrite (dispatch_phase w _ _ Hp).
  - unfold isWaiting, call_plain, isWaiting_.
    by rewrite (dispatch_phase w _ _ Hp).
  - unfold isDone, call_plain, isDone_.
    by rewrite (dispatch_phase w _ _ Hp).
  - unfold isRunning, call_plain, isRunning_.
    by rewrite (dispatch_phase w _ _ Hp).
  - unfold isCancelled, call_plain, isCancelled_.
    by rewrite (dispatch_phase w _ _ Hp).
Qed.

Lemma body_actions_cancelled self timer (acts : list BodyAction) w :
  phase w = Some StateCancelled ->
  body_actions self timer acts w = Ret tt w.
Proof.
  intros Hp. induction acts as [|a acts IH]; simpl; [done|].
  pose proof (ask_cancelled self timer (QCancel []) w Hp) as Hc.
  pose proof (ask_cancelled self timer QRestart w Hp) as Hr.
  simpl in Hc, Hr. destruct a; [by rewrite Hc|by rewrite Hr].
Qed.

Lemma done_cancelled timer w :
  phase w = Some StateCancelled -> Switcher (done_ timer) w = Ret false w.
Proof.
  intros Hp. apply call_return_default. unfold done_.
  by rewrite (dispatch_phase w _ _ Hp).
Qed.

Lemma exception_cancelled (e : Exn) w :
  phase w = Some StateCancelled -> Switcher (exception_ e) w = Ret false w.
Proof.
  intros Hp. apply call_return_default. unfold exception_.
  by rewrite (dispatch_phase w _ _ Hp).
Qed.

(** [done] on a running task nobody asked to restart. *)
Lemma done_running timer w executor :
  allocated w -> phase w = Some (StateRunning executor false) ->
  ∃ w', Switcher (done_ timer) w = Ret true w'
        ∧ phase w' = Some StateDone ∧ allocated w'.
Proof.
  intros Ha Hp. apply call_return_new; [done|].
  unfold done_. by rewrite (dispatch_phase w _ _ Hp).
Qed.

(** A member that returns a new state object: the cell points to it, at
    the address that was the next unused one. *)
Lemma call_return_new_state (call : nat -> World -> Res World Request) w ph :
  allocated w -> call (state w) w = return_new ph w ->
  BaseSwitcher call w
    = Ret true {| state := brk (rest w);
                  rest := {| objects := <[brk (rest w) := ph]> (objects (rest w));
                             brk := S (brk (rest w)) |} |}.
Proof.
  unfold allocated, return_new, make_shared. intros Ha Hcall.
  erewrite BaseSwitcher_current; [|exact Hcall|done]. done.
Qed.

(** [cancel] on a running task from another thread is the wait. *)
Lemma cancel_running_waits self executor wanted (env : Env World) w :
  phase w = Some (StateRunning executor wanted) -> self ≠ executor ->
  cancel self env w
    = match cv_wait (StateChanged (state w)) env w with
      | Some (w', _) => Ret false w'
      | None => Block
      end.
Proof.
  intros Hp Hne. unfold cancel, SwitcherChanged, BaseSwitcher.
  unfold cancel_ at 1. rewrite (dispatch_phase w _ _ Hp).
  rewrite bool_decide_eq_false_2 by (intros Heq; by apply Hne).
  unfold waitForNotification. simpl. unfold World in *.
  destruct (cv_wait _ env w) as [[w1 env1]|] eqn:Hw; [|done].
  apply cv_wait_holds in Hw. unfold StateChanged in Hw.
  simpl. by rewrite Hw.
Qed.

(** Steps that notify as the sources do wake a waiter on the object at [p]
    only while the cell still points to that object. *)
Lemma wake_ups_since_unchanged (p : nat) (steps : list (Step World))
    (since : World -> World) w wl :
  since wl = w -> state wl = p ->
  Forall notifies_current steps ->
  cv_wait (StateChanged p) (wake_ups_since p steps since w) wl = None.
Proof.
  intros Hsince Hwl Hsteps. revert since w wl Hsince Hwl.
  induction Hsteps as [|s steps Hs _ IH]; intros since w wl Hsince Hwl.
  - simpl. unfold StateChanged.
    by rewrite bool_decide_eq_false_2 by (intros Hc; by apply Hc).
  - cbn [wake_ups_since]. case_bool_decide as Hn.
    + cbn [cv_wait]. unfold StateChanged at 1.
      rewrite bool_decide_eq_false_2 by (intros Hc; by apply Hc).
      rewrite Hsince. apply IH; [done|].
      destruct (Hs (effect s w)) as [Hnone|Hcur]; congruence.
    + apply IH; [by rewrite Hsince|done].
Qed.

Lemma wake_ups_unchanged (p : nat) (steps : list (Step World)) w :
  state w = p -> Forall notifies_current steps ->
  cv_wait (StateChanged p) (wake_ups p steps w) w = None.
Proof. intros. by apply wake_ups_since_unchanged. Qed.

End DelayedTaskMoreFacts.

(** C4, as the code has it.  On a task in the phase [StateRunning]:
    [cancel] called on the executor thread installs [StateCancelled] and
    returns [true].  [cancel] called on another thread waits on the
    condition variable of the running state object, and nothing in the
    sources notifies that one once the phase has changed: [run] sends its
    [notifyAll] to the object that [done] or [exception] has just
    installed.  So whatever the other threads do, the executor that ends
    the task among them, as long as they notify as the sources do, the call
    does not return; it would return [false] at a wake-up that found the
    phase changed, and there is none. *)
Theorem DelayedTask_outside_cancel_never_woken
    (self executor : ThreadId) (wanted : bool)
    (timer : DelayedTask.TimerCalls) (outcome : ThreadPool.Body)
    (steps : list (Guard.Step DelayedTask.World)) (w : DelayedTask.World) :
  DelayedTask.allocated w ->
  DelayedTask.phase w = Some (DelayedTask.StateRunning executor wanted) ->
  (∀ env, ∃ w', DelayedTask.cancel executor env w = Guard.Ret true w'
                ∧ DelayedTask.phase w' = Some DelayedTask.StateCancelled)
  ∧ DelayedTask.notifies_current (DelayedTask.finish timer outcome)
  ∧ (wanted = false ->
       DelayedTask.phase (Guard.effect (DelayedTask.finish timer outcome) w)
         = Some (match outcome with
                 | ThreadPool.Returns => DelayedTask.StateDone
                 | ThreadPool.Throws e => DelayedTask.StateException e
                 end)
       ∧ State.state (Guard.effect (DelayedTask.finish timer outcome) w)
         ≠ State.state w)
  ∧ (self ≠ executor ->
       Forall DelayedTask.notifies_current steps ->
       DelayedTask.cancel self (Guard.wake_ups (State.state w) steps w) w
       = Guard.Block)
  ∧ (self ≠ executor ->
       ∀ env,
         (∀ b w', DelayedTask.cancel self env w = Guard.Ret b w' ->
                  b = false ∧ State.state w' ≠ State.state w)
         ∧ ((∃ k, State.state (Guard.woken k env w) ≠ State.state w) ->
              ∃ w', DelayedTask.cancel self env w = Guard.Ret false w')).
Proof.
  intros Ha Hp. unfold DelayedTask.World in *.
  assert (Hfinish : DelayedTask.notifies_current
                      (DelayedTask.finish timer outcome)).
  { intros w0. by right. }
  split; [|split; [exact Hfinish|split; [|split]]].
  - intros env.
    destruct (cancel_running_executor executor wanted env w Ha Hp)
      as (w' & Hc & Hp' & _).
    by exists w'.
  - intros ->. unfold DelayedTask.finish. cbn [Guard.effect].
    assert (Hfresh : State.state w ≠ DelayedTask.brk (State.rest w)).
    { unfold DelayedTask.allocated in Ha. lia. }
    destruct outcome as [|e].
    + unfold State.Switcher.
      rewrite (call_return_new_state
                 (fun persistent => DelayedTask.done_ timer persistent) w
                 DelayedTask.StateDone Ha).
      * split; [apply lookup_insert_eq|done].
      * unfold DelayedTask.done_. by rewrite (dispatch_phase w _ _ Hp).
    + unfold State.Switcher.
      rewrite (call_return_new_state
                 (fun persistent => DelayedTask.exception_ e persistent) w
                 (DelayedTask.StateException e) Ha).
      * split; [apply lookup_insert_eq|done].
      * unfold DelayedTask.exception_. by rewrite (dispatch_phase w _ _ Hp).
  - intros Hne Hsteps.
    rewrite (cancel_running_waits self executor wanted _ w Hp Hne).
    by rewrite (wake_ups_unchanged (State.state w)).
  - intros Hne env.
    rewrite (cancel_running_waits self executor wanted env w Hp Hne).
    split.
    + intros b w'.
      destruct (Guard.cv_wait _ env w) as [[w1 env1]|] eqn:Hw; [|done].
      intros [= <- <-]. split; [done|].
      apply cv_wait_holds in Hw. unfold State.StateChanged in Hw.
      by apply bool_decide_eq_true_1 in Hw.
    + intros [k Hk].
      destruct (cv_wait_returns (State.StateChanged (State.state w)) env w k)
        as (w' & env' & ->); [|by eexists].
      unfold State.StateChanged. by apply bool_decide_eq_true_2.
Qed.

Lemma DelayedTask_outside_cancel_never_woken_witness :
  let w := {| State.state := 1;
              State.rest :=
                {| DelayedTask.objects :=
                     {[ 1 := DelayedTask.StateRunning 4 false ]};
                   DelayedTask.brk := 2 |} |} in
  let timer := DelayedTask.mkTimerCalls None None in
  let finish := DelayedTask.finish timer ThreadPool.Returns in
  DelayedTask.allocated w
  ∧ DelayedTask.phase w = Some (DelayedTask.StateRunning 4 false)
  ∧ 2 ≠ 4
  ∧ Forall DelayedTask.notifies_current [finish]
  ∧ DelayedTask.phase (Guard.effect finish w) = Some DelayedTask.StateDone
  ∧ DelayedTask.cancel 2 (Guard.wake_ups 1 [finish] w) w = Guard.Block.
Proof.
  intros w timer finish.
  assert (Ha : DelayedTask.allocated w)
    by (unfold DelayedTask.allocated; simpl; lia).
  assert (Hne : 2 ≠ 4) by lia.
  destruct (DelayedTask_outside_cancel_never_woken 2 4 false timer
              ThreadPool.Returns [finish] w Ha eq_refl)
    as (_ & Hfinish & Hchanged & Hblock & _).
  assert (Hsteps : Forall DelayedTask.notifies_current [finish]).
  { apply Forall_cons_2; [exact Hfinish | apply Forall_nil_2]. }
  split; [exact Ha|]. split; [reflexivity|]. split; [exact Hne|].
  split; [exact Hsteps|].
  split; [exact (proj1 (Hchanged eq_refl))|].
  exact (Hblock Hne Hsteps).
Defined.

(** X15.  Of the four status predicates of a task exactly one is true,
    unless the task ended in an exception: then [isDone] rethrows it and the
    other three are false.  No predicate changes the task. *)
Theorem DelayedTask_one_status
    (w : DelayedTask.World) (ph : DelayedTask.Phase) :
  DelayedTask.phase w = Some ph ->
  match ph with
  | DelayedTask.StateException e =>
      DelayedTask.isDone w = Guard.Throw e w
      ∧ DelayedTask.isWaiting w = Guard.Ret false w
      ∧ DelayedTask.isRunning w = Guard.Ret false w
      ∧ DelayedTask.isCancelled w = Guard.Ret false w
  | _ =>
      ∃ waiting running done cancelled : bool,
        DelayedTask.isWaiting w = Guard.Ret waiting w
        ∧ DelayedTask.isRunning w = Guard.Ret running w
        ∧ DelayedTask.isDone w = Guard.Ret done w
        ∧ DelayedTask.isCancelled w = Guard.Ret cancelled w
        ∧ Nat.b2n waiting + Nat.b2n running + Nat.b2n done
          + Nat.b2n cancelled = 1
  end.
Proof.
  intros Hp.
  unfold DelayedTask.isWaiting, DelayedTask.isRunning, DelayedTask.isDone,
    DelayedTask.isCancelled, State.call_plain,
    DelayedTask.isWaiting_, DelayedTask.isRunning_, DelayedTask.isDone_,
    DelayedTask.isCancelled_.
  rewrite !(dispatch_phase w _ _ Hp).
  destruct ph; try done; by eexists _, _, _, _.
Qed.

Lemma DelayedTask_one_status_witness :
  DelayedTask.phase DelayedTask.DelayedTask_new = Some DelayedTask.StateWaiting
  ∧ ∃ waiting running done cancelled : bool,
      DelayedTask.isWaiting DelayedTask.DelayedTask_new
        = Guard.Ret waiting DelayedTask.DelayedTask_new
      ∧ DelayedTask.isRunning DelayedTask.DelayedTask_new
        = Guard.Ret running DelayedTask.DelayedTask_new
      ∧ DelayedTask.isDone DelayedTask.DelayedTask_new
        = Guard.Ret done DelayedTask.DelayedTask_new
      ∧ DelayedTask.isCancelled DelayedTask.DelayedTask_new
        = Guard.Ret cancelled DelayedTask.DelayedTask_new
      ∧ Nat.b2n waiting + Nat.b2n running + Nat.b2n done
        + Nat.b2n cancelled = 1.
Proof.
  split; [reflexivity|].
  apply (DelayedTask_one_status DelayedTask.DelayedTask_new
           DelayedTask.StateWaiting eq_refl).
Defined.

(** X16.  No exception ever leaves [DelayedTask::run]: whatever the body
    does and throws, and whatever phase the task is in, the call returns or
    waits. *)
Theorem DelayedTask_run_never_throws
    (self : ThreadId) (timer : DelayedTask.TimerCalls)
    (b : DelayedTask.TaskBody) (w w' : DelayedTask.World) (e : Exn) :
  DelayedTask.run self timer b w ≠ Guard.Throw e w'.
Proof.
  unfold DelayedTask.run.
  destruct (State.Switcher (DelayedTask.run_ self) w) as [[] w1|e1 w1|] eqn:Hrun;
    [|done| |done].
  2:{ apply BaseSwitcher_throw_inv in Hrun. by apply run__no_throw in Hrun. }
  assert (Hcaught : ∀ e0 w0,
            match State.Switcher (DelayedTask.exception_ e0) w0 with
            | Guard.Ret _ w'' => Guard.Ret tt w''
            | Guard.Throw e' w'' => Guard.Throw e' w''
            | Guard.Block => Guard.Block
            end ≠ Guard.Throw e w').
  { intros e0 w0.
    destruct (State.Switcher (DelayedTask.exception_ e0) w0)
      as [r w2|e2 w2|] eqn:Hexc; [done| |done].
    apply BaseSwitcher_throw_inv in Hexc.
    by apply exception__no_throw in Hexc. }
  destruct (DelayedTask.invoke self timer b w1) as [[] w2|e2 w2|];
    [|by apply Hcaught|done].
  destruct (State.Switcher (DelayedTask.done_ timer) w2)
    as [r w3|e3 w3|] eqn:Hdone; [done|by apply Hcaught|done].
Qed.

(** X17.  [run] does something only to a task that waits: on a task that is
    running, done, cancelled or ended in an exception it returns at once,
    the body is not invoked and the task stays as it is.  A task is thus run
    once per stay in the waiting phase. *)
Theorem DelayedTask_run_only_when_waiting
    (self : ThreadId) (timer : DelayedTask.TimerCalls)
    (b : DelayedTask.TaskBody) (w : DelayedTask.World)
    (ph : DelayedTask.Phase) :
  DelayedTask.phase w = Some ph ->
  ph ≠ DelayedTask.StateWaiting ->
  DelayedTask.run self timer b w = Guard.Ret tt w.
Proof.
  intros Hp Hne. unfold DelayedTask.run.
  by rewrite (run_not_waiting self w ph Hp Hne).
Qed.

Lemma DelayedTask_run_only_when_waiting_witness :
  let w := {| State.state := 1;
              State.rest :=
                {| DelayedTask.objects := {[ 1 := DelayedTask.StateDone ]};
                   DelayedTask.brk := 2 |} |} in
  DelayedTask.phase w = Some DelayedTask.StateDone
  ∧ DelayedTask.StateDone ≠ DelayedTask.StateWaiting
  ∧ DelayedTask.run 1 (DelayedTask.mkTimerCalls None None)
      {| DelayedTask.actions := [DelayedTask.BodyCancel];
         DelayedTask.outcome := ThreadPool.Throws 7 |} w = Guard.Ret tt w.
Proof.
  intros w. split; [reflexivity|]. split; [discriminate|].
  apply (DelayedTask_run_only_when_waiting 1 _ _ w DelayedTask.StateDone
           eq_refl).
  discriminate.
Defined.

(** X18.  A cancelled task stays cancelled: whatever is asked of it and
    whoever runs it, nothing about it changes; [cancel] and [restart]
    return [false], [isCancelled] returns [true], and [run] does not invoke
    the body. *)
Theorem DelayedTask_cancelled_is_final
    (timer : DelayedTask.TimerCalls)
    (qs : list (ThreadId * DelayedTask.Query)) (w : DelayedTask.World) :
  DelayedTask.phase w = Some DelayedTask.StateCancelled ->
  DelayedTask.after qs timer w = w
  ∧ (∀ self env, DelayedTask.cancel self env w = Guard.Ret false w)
  ∧ DelayedTask.restart timer w = Guard.Ret false w
  ∧ DelayedTask.isCancelled w = Guard.Ret true w
  ∧ (∀ self b, DelayedTask.run self timer b w = Guard.Ret tt w).
Proof.
  intros Hp. split; [|split; [|split; [|split]]].
  - induction qs as [|[tid q] qs IH]; simpl; [done|].
    by rewrite (ask_cancelled tid timer q w Hp).
  - intros self env.
    exact (ask_cancelled self timer (DelayedTask.QCancel env) w Hp).
  - exact (ask_cancelled 0 timer DelayedTask.QRestart w Hp).
  - exact (ask_cancelled 0 timer DelayedTask.QIsCancelled w Hp).
  - intros self b. unfold DelayedTask.run.
    by rewrite (run_not_waiting self w DelayedTask.StateCancelled Hp).
Qed.

Lemma DelayedTask_cancelled_is_final_witness :
  let w := {| State.state := 1;
              State.rest :=
                {| DelayedTask.objects := {[ 1 := DelayedTask.StateCancelled ]};
                   DelayedTask.brk := 2 |} |} in
  DelayedTask.phase w = Some DelayedTask.StateCancelled
  ∧ DelayedTask.after [(3, DelayedTask.QRestart); (4, DelayedTask.QCancel [])]
      (DelayedTask.mkTimerCalls None None) w = w.
Proof.
  intros w. split; [reflexivity|].
  apply (DelayedTask_cancelled_is_final (DelayedTask.mkTimerCalls None None)
           [(3, DelayedTask.QRestart); (4, DelayedTask.QCancel [])] w eq_refl).
Defined.

(** X19.  [cancel] returns [true] only when it has made the task cancelled:
    whatever the phase and the calling thread, a [cancel] that returns
    [true] leaves the task in the phase [StateCancelled].  It does so for
    every task that waits or is done, so a task that has completed is
    turned from done to cancelled by a later [cancel]. *)
Theorem DelayedTask_cancel_true_means_cancelled
    (self : ThreadId) (env : Guard.Env DelayedTask.World)
    (w : DelayedTask.World) (ph : DelayedTask.Phase) :
  DelayedTask.allocated w ->
  DelayedTask.phase w = Some ph ->
  (∀ w', DelayedTask.cancel self env w = Guard.Ret true w' ->
         DelayedTask.phase w' = Some DelayedTask.StateCancelled)
  ∧ (ph = DelayedTask.StateWaiting ∨ ph = DelayedTask.StateDone ->
     ∃ w', DelayedTask.cancel self env w = Guard.Ret true w'
           ∧ DelayedTask.phase w' = Some DelayedTask.StateCancelled
           ∧ DelayedTask.isDone w' = Guard.Ret false w').
Proof.
  intros Ha Hp. split.
  - intros w' Hc. destruct ph as [|executor wanted| |e|].
    + destruct (cancel_waiting_or_done self env w _ Ha Hp (or_introl eq_refl))
        as (w1 & Hc1 & Hp1 & _).
      rewrite Hc1 in Hc. by injection Hc as <-.
    + destruct (decide (self = executor)) as [->|Hne].
      * destruct (cancel_running_executor executor wanted env w Ha Hp)
          as (w1 & Hc1 & Hp1 & _).
        rewrite Hc1 in Hc. by injection Hc as <-.
      * by apply (cancel_running_other self executor wanted env w true w' Hp Hne)
          in Hc.
    + destruct (cancel_waiting_or_done self env w _ Ha Hp (or_intror eq_refl))
        as (w1 & Hc1 & Hp1 & _).
      rewrite Hc1 in Hc. by injection Hc as <-.
    + pose proof (ask_exception self (DelayedTask.mkTimerCalls None None)
                    (DelayedTask.QCancel env) w e Hp) as He.
      simpl in He. by rewrite He in Hc.
    + pose proof (ask_cancelled self (DelayedTask.mkTimerCalls None None)
                    (DelayedTask.QCancel env) w Hp) as He.
      simpl in He. by rewrite He in Hc.
  - intros Hph.
    destruct (cancel_waiting_or_done self env w ph Ha Hp Hph)
      as (w1 & Hc1 & Hp1 & _).
    exists w1. split; [done|]. split; [done|].
    exact (ask_cancelled self (DelayedTask.mkTimerCalls None None)
             DelayedTask.QIsDone w1 Hp1).
Qed.

Lemma DelayedTask_cancel_true_means_cancelled_witness :
  let w := {| State.state := 1;
              State.rest :=
                {| DelayedTask.objects := {[ 1 := DelayedTask.StateDone ]};
                   DelayedTask.brk := 2 |} |} in
  DelayedTask.allocated w
  ∧ DelayedTask.phase w = Some DelayedTask.StateDone
  ∧ ∃ w', DelayedTask.cancel 3 [] w = Guard.Ret true w'
          ∧ DelayedTask.phase w' = Some DelayedTask.StateCancelled
          ∧ DelayedTask.isDone w' = Guard.Ret false w'.
Proof.
  intros w.
  assert (Ha : DelayedTask.allocated w)
    by (unfold DelayedTask.allocated; simpl; lia).
  split; [exact Ha|]. split; [reflexivity|].
  apply (DelayedTask_cancel_true_means_cancelled 3 [] w DelayedTask.StateDone
           Ha eq_refl).
  by right.
Defined.

(** X20.  A waiting task whose body returns, and which nobody cancelled or
    asked to restart in the meantime, is done after [run]: [isDone] is
    [true] and the three other predicates are [false]. *)
Theorem DelayedTask_run_completes
    (self : ThreadId) (timer : DelayedTask.TimerCalls)
    (w : DelayedTask.World) :
  DelayedTask.allocated w ->
  DelayedTask.phase w = Some DelayedTask.StateWaiting ->
  ∃ w',
    DelayedTask.run self timer
      {| DelayedTask.actions := [];
         DelayedTask.outcome := ThreadPool.Returns |} w = Guard.Ret tt w'
    ∧ DelayedTask.phase w' = Some DelayedTask.StateDone
    ∧ DelayedTask.allocated w'
    ∧ DelayedTask.isDone w' = Guard.Ret true w'
    ∧ DelayedTask.isWaiting w' = Guard.Ret false w'
    ∧ DelayedTask.isRunning w' = Guard.Ret false w'
    ∧ DelayedTask.isCancelled w' = Guard.Ret false w'.
Proof.
  intros Ha Hp.
  destruct (run_enters_running self w Ha Hp) as (w1 & Hrun & Hp1 & Ha1).
  destruct (done_running timer w1 self Ha1 Hp1) as (w2 & Hdone & Hp2 & Ha2).
  exists w2. split.
  { unfold DelayedTask.run, DelayedTask.invoke. simpl.
    by rewrite Hrun, Hdone. }
  split; [done|]. split; [done|].
  unfold DelayedTask.isWaiting, DelayedTask.isRunning, DelayedTask.isDone,
    DelayedTask.isCancelled, State.call_plain,
    DelayedTask.isWaiting_, DelayedTask.isRunning_, DelayedTask.isDone_,
    DelayedTask.isCancelled_.
  by rewrite !(dispatch_phase w2 _ _ Hp2).
Qed.

Lemma DelayedTask_run_completes_witness :
  DelayedTask.allocated DelayedTask.DelayedTask_new
  ∧ DelayedTask.phase DelayedTask.DelayedTask_new
    = Some DelayedTask.StateWaiting
  ∧ ∃ w',
      DelayedTask.run 1 (DelayedTask.mkTimerCalls None None)
        {| DelayedTask.actions := [];
           DelayedTask.outcome := ThreadPool.Returns |}
        DelayedTask.DelayedTask_new = Guard.Ret tt w'
      ∧ DelayedTask.phase w' = Some DelayedTask.StateDone.
Proof.
  split; [apply allocated_new|]. split; [reflexivity|].
  destruct (DelayedTask_run_completes 1 (DelayedTask.mkTimerCalls None None)
              DelayedTask.DelayedTask_new allocated_new eq_refl)
    as (w' & Hrun & Hp & _).
  exists w'. split; [exact Hrun | exact Hp].
Defined.

(** X21.  A body that cancels its own task first leaves the task cancelled,
    whatever it does afterwards and whether it returns or throws: neither
    [done] nor [exception] takes a task out of the cancelled phase, so the
    exception of such a body is stored nowhere. *)
Theorem DelayedTask_cancel_inside_body_wins
    (self : ThreadId) (timer : DelayedTask.TimerCalls)
    (acts : list DelayedTask.BodyAction) (outcome : ThreadPool.Body)
    (w : DelayedTask.World) :
  DelayedTask.allocated w ->
  DelayedTask.phase w = Some DelayedTask.StateWaiting ->
  ∃ w',
    DelayedTask.run self timer
      {| DelayedTask.actions := DelayedTask.BodyCancel :: acts;
         DelayedTask.outcome := outcome |} w = Guard.Ret tt w'
    ∧ DelayedTask.phase w' = Some DelayedTask.StateCancelled
    ∧ DelayedTask.isDone w' = Guard.Ret false w'.
Proof.
  intros Ha Hp.
  destruct (run_enters_running self w Ha Hp) as (w1 & Hrun & Hp1 & Ha1).
  destruct (cancel_running_executor self false [] w1 Ha1 Hp1)
    as (w2 & Hc & Hp2 & Ha2).
  exists w2. split.
  { unfold DelayedTask.run, DelayedTask.invoke. rewrite Hrun.
    cbn [DelayedTask.actions DelayedTask.outcome DelayedTask.body_actions].
    rewrite Hc, (body_actions_cancelled self timer acts w2 Hp2).
    destruct outcome as [|e].
    - by rewrite (done_cancelled timer w2 Hp2).
    - by rewrite (exception_cancelled e w2 Hp2). }
  split; [done|].
  exact (ask_cancelled self timer DelayedTask.QIsDone w2 Hp2).
Qed.

Lemma DelayedTask_cancel_inside_body_wins_witness :
  DelayedTask.allocated DelayedTask.DelayedTask_new
  ∧ DelayedTask.phase DelayedTask.DelayedTask_new
    = Some DelayedTask.StateWaiting
  ∧ ∃ w',
      DelayedTask.run 1 (DelayedTask.mkTimerCalls None None)
        {| DelayedTask.actions :=
             [DelayedTask.BodyCancel; DelayedTask.BodyRestart];
           DelayedTask.outcome := ThreadPool.Throws 7 |}
        DelayedTask.DelayedTask_new = Guard.Ret tt w'
      ∧ DelayedTask.phase w' = Some DelayedTask.StateCancelled.
Proof.
  split; [apply allocated_new|]. split; [reflexivity|].
  destruct (DelayedTask_cancel_inside_body_wins 1
              (DelayedTask.mkTimerCalls None None)
              [DelayedTask.BodyRestart] (ThreadPool.Throws 7)
              DelayedTask.DelayedTask_new allocated_new eq_refl)
    as (w' & Hrun & Hp & _).
  exists w'. split; [exact Hrun | exact Hp].
Defined.

(* ===================================================================== *)
(** * Properties of the timer around its queue                            *)
(* ===================================================================== *)

Section TickFacts.
Import TimerQueue.

(** A count that fits 64 bits is what the machine holds. *)
Lemma wrap64_fits (z : Z) : fits64 z -> wrap64 z = z.
Proof.
  unfold fits64, wrap64. intros Hz.
  rewrite Z.mod_small by lia. lia.
Qed.

Lemma wrap64_range (z : Z) : fits64 (wrap64 z).
Proof.
  unfold fits64, wrap64.
  pose proof (Z.mod_pos_bound (z + 2 ^ 63) (2 ^ 64) ltac:(lia)). lia.
Qed.



End TickFacts.

Section TimerFacts.
Import Guard State.
Implicit Types (tm : Timer.Self) (task : TimerQueue.TaskPtr).

Lemma addTask_accepts_fresh (delay : TimerQueue.TaskPtr -> Z)
    (now : TimerQueue.TimePoint) task (q : TimerQueue.Queue) :
  TimerQueue._quit q = false ->
  length (TimerQueue._queue q) < TimerQueue._maxQueueSize q ->
  TimerQueue._mapping q !! task = None ->
  ∃ signals q', TimerQueue.addTask delay now task q = (true, signals, q').
Proof.
  intros Hq Hlen Hm. unfold TimerQueue.addTask. rewrite Hq. simpl.
  destruct (Nat.leb_spec (TimerQueue._maxQueueSize q)
              (length (TimerQueue._queue q))); [lia|].
  unalias. rewrite Hm.
  destruct (TimerQueue.placeTask _ _ _) as [s q2]. by eexists _, _.
Qed.

(** [cancel] on a task at rest. *)
Lemma task_cancel_at_rest self (env : Env DelayedTask.World) task tm :
  Timer.at_rest tm task ->
  ∃ (b : bool) w',
    Timer.task_cancel self env task tm = Ret b (Timer.set_state task w' tm)
    ∧ DelayedTask.allocated w'
    ∧ DelayedTask.phase w' = Some DelayedTask.StateCancelled.
Proof.
  intros (t & Ht & Ha & Hph). unfold Timer.task_cancel. rewrite Ht.
  destruct Hph as [Hp|[Hp|Hp]].
  - destruct (cancel_waiting_or_done self env _ _ Ha Hp (or_introl eq_refl))
      as (w' & -> & Hp' & Ha').
    by exists true, w'.
  - destruct (cancel_waiting_or_done self env _ _ Ha Hp (or_intror eq_refl))
      as (w' & -> & Hp' & Ha').
    by exists true, w'.
  - pose proof (ask_cancelled self (DelayedTask.mkTimerCalls None None)
                  (DelayedTask.QCancel env) _ Hp) as Hc.
    simpl in Hc. rewrite Hc. by exists false, (Timer._state t).
Qed.

Lemma set_state_lookup task w tm t :
  Timer.tasks tm !! task = Some t ->
  Timer.tasks (Timer.set_state task w tm) !! task
    = Some {| Timer._delay := Timer._delay t; Timer._state := w |}.
Proof. intros Ht. simpl. by rewrite lookup_alter_eq, Ht. Qed.

Lemma set_state_lookup_ne task other w tm :
  other ≠ task ->
  Timer.tasks (Timer.set_state task w tm) !! other = Timer.tasks tm !! other.
Proof. intros Hne. simpl. by rewrite lookup_alter_ne. Qed.

(** The loop of [cancelAll] over tasks at rest. *)
Lemma cancel_each_at_rest self envs (ps : list TimerQueue.TaskPtr) tm :
  (∀ task, task ∈ ps -> Timer.at_rest tm task) ->
  ∃ tm', Timer.cancel_each self envs ps tm = Ret tt tm'
         ∧ Timer._queue tm' = Timer._queue tm
         ∧ (∀ task, task ∈ ps -> Timer.cancelled tm' task)
         ∧ (∀ other, other ∉ ps ->
              Timer.tasks tm' !! other = Timer.tasks tm !! other).
Proof.
  revert tm. induction ps as [|task ps IH]; intros tm Hrest; simpl.
  - exists tm. repeat split; try done. intros task Hin.
    by apply elem_of_nil in Hin.
  - destruct (task_cancel_at_rest self (envs task) task tm)
      as (b & w' & -> & Ha' & Hp'); [apply Hrest; by left|].
    destruct (Hrest task) as (t & Ht & _); [by left|].
    set (tm1 := Timer.set_state task w' tm).
    assert (Hc1 : Timer.cancelled tm1 task).
    { eexists. split; [by apply set_state_lookup|]. by split. }
    destruct (IH tm1) as (tm' & Hrun & Hq & Hall & Hother).
    { intros p Hin. destruct (decide (p = task)) as [->|Hne].
      - destruct Hc1 as (t1 & ? & ? & ?). exists t1. auto.
      - destruct (Hrest p) as (tp & Htp & Hap & Hpp); [by right|].
        exists tp. split; [|done].
        unfold tm1. by rewrite set_state_lookup_ne. }
    exists tm'. split; [done|]. split; [done|]. split.
    + intros p [->|Hin]%elem_of_cons; [|by apply Hall].
      destruct (decide (task ∈ ps)) as [Hin|Hnin]; [by apply Hall|].
      destruct Hc1 as (t1 & Ht1 & ? & ?). exists t1.
      split; [|done]. by rewrite Hother.
    + intros other Hnin. apply not_elem_of_cons in Hnin as [Hne Hnin].
      rewrite Hother by done. unfold tm1. by rewrite set_state_lookup_ne.
Qed.


End TimerFacts.




(** X22.  [addDelayedTask] on a timer whose queue has been stopped or is
    full returns the handle of a task that is already cancelled and not in
    the queue.  Otherwise the task waits and sits in the queue, in both
    maps, under the due time that the 64-bit ticks of the clock give for the
    time of the call plus its delay, which is the exact sum whenever that
    fits; and the queue keeps its invariants. *)
Theorem Timer_addDelayedTask_queued_or_cancelled
    (self : ThreadId) (now : TimerQueue.TimePoint) (duration : Z)
    (tm : Timer.Self) :
  Timer.fresh_from_brk tm ->
  TimerQueue.invariant (Timer._queue tm) ->
  let q := Timer._queue tm in
  let rejected := TimerQueue._quit q = true
                  ∨ TimerQueue._maxQueueSize q ≤ length (TimerQueue._queue q) in
  let due := TimerQueue.wrap64 (now + TimerQueue.ticks_of_ms duration) in
  ∃ tm',
    Timer.addDelayedTask self now duration tm = Guard.Ret (Timer.brk tm) tm'
    ∧ (rejected ->
         Timer._queue tm' = q ∧ Timer.cancelled tm' (Timer.brk tm)
         ∧ ∀ d, (d, Timer.brk tm) ∉ TimerQueue._queue q)
    ∧ (¬ rejected ->
         Timer.tasks tm' !! Timer.brk tm
           = Some {| Timer._delay := duration;
                     Timer._state := DelayedTask.DelayedTask_new |}
         ∧ TimerQueue._mapping (Timer._queue tm') !! Timer.brk tm = Some due
         ∧ (due, Timer.brk tm) ∈ TimerQueue._queue (Timer._queue tm')
         ∧ TimerQueue.invariant (Timer._queue tm')
         ∧ (TimerQueue.fits64 (duration * 1000000) ->
            TimerQueue.fits64 (now + duration * 1000000) ->
            due = (now + duration * 1000000)%Z)).
Proof.
  intros Hfresh Hi q rejected due.
  destruct (Hfresh (Timer.brk tm) (le_n _)) as [Hnone Hmap].
  unfold Timer.addDelayedTask, Timer.Self_addTask.
  set (task := Timer.brk tm).
  set (new := {| Timer._delay := duration;
                 Timer._state := DelayedTask.DelayedTask_new |}).
  set (tm1 := {| Timer._queue := Timer._queue tm;
                 Timer.tasks := <[task := new]> (Timer.tasks tm);
                 Timer.brk := S task |}).
  assert (Hdelay : TimerQueue.dueTime (Timer.delay tm1) now task = due).
  { unfold TimerQueue.dueTime, Timer.delay, tm1, due. simpl.
    by rewrite lookup_insert_eq. }
  change (Timer._queue tm1) with q.
  destruct (decide rejected) as [Hrej|Hok].
  - rewrite (addTask_rejected (Timer.delay tm1) now task q Hrej).
    destruct (task_cancel_at_rest self [] task (Timer.set_queue q tm1))
      as (b & w' & -> & Ha' & Hp').
    { exists new. split; [simpl; by rewrite lookup_insert_eq|].
      split; [apply allocated_new|]. by left. }
    eexists. split; [reflexivity|]. split; [|done].
    intros _. split; [done|]. split.
    + eexists. split.
      { apply set_state_lookup. simpl. by rewrite lookup_insert_eq. }
      by split.
    + intros d Hin.
      apply (agree_lookup q task d) in Hin; [|apply Hi].
      unfold q, task in Hin. unalias. rewrite Hmap in Hin. done.
  - assert (Hq : TimerQueue._quit q = false).
    { destruct (TimerQueue._quit q) eqn:E; [|done].
      exfalso. apply Hok. by left. }
    assert (Hlen : length (TimerQueue._queue q) < TimerQueue._maxQueueSize q).
    { destruct (decide (TimerQueue._maxQueueSize q
                        ≤ length (TimerQueue._queue q))) as [Hle|]; [|lia].
      exfalso. apply Hok. by right. }
    destruct (addTask_accepts_fresh (Timer.delay tm1) now task q Hq Hlen Hmap)
      as (signals & q' & Hadd).
    destruct (addTask_accepted (Timer.delay tm1) now task q signals q' Hi Hadd)
      as (_ & _ & _ & _ & _ & Hmap' & Hperm & _ & _ & Hi').
    rewrite Hdelay in Hmap', Hperm.
    fold q. rewrite Hadd.
    eexists. split; [done|]. split; [done|].
    intros _. simpl. split; [by rewrite lookup_insert_eq|].
    split; [rewrite Hmap'; apply lookup_insert_eq|].
    split; [rewrite Hperm; by left|]. split; [done|].
    intros Hd Hs. unfold due, TimerQueue.ticks_of_ms.
    rewrite (wrap64_fits _ Hd). by apply wrap64_fits.
Qed.

Lemma Timer_addDelayedTask_queued_or_cancelled_witness :
  let full := Timer.mkSelf (TimerQueue.Queue_new 0) ∅ 0 in
  let tm := Timer.mkSelf (TimerQueue.Queue_new 2) ∅ 0 in
  Timer.fresh_from_brk full
  ∧ Timer.fresh_from_brk tm
  ∧ TimerQueue.invariant (Timer._queue full)
  ∧ TimerQueue.invariant (Timer._queue tm)
  ∧ (∃ tm', Timer.addDelayedTask 1 0%Z 100%Z full = Guard.Ret 0 tm'
            ∧ Timer.cancelled tm' 0)
  ∧ (∃ tm', Timer.addDelayedTask 1 0%Z 100%Z tm = Guard.Ret 0 tm'
            ∧ TimerQueue._mapping (Timer._queue tm') !! 0
              = Some 100000000%Z).
Proof.
  intros full tm.
  assert (Hf : Timer.fresh_from_brk full) by (intros p _; by split).
  assert (Ht : Timer.fresh_from_brk tm) by (intros p _; by split).
  split; [exact Hf|]. split; [exact Ht|].
  split; [apply invariant_new|]. split; [apply invariant_new|]. split.
  - destruct (Timer_addDelayedTask_queued_or_cancelled 1 0%Z 100%Z full Hf
                (invariant_new 0)) as (tm' & Hadd & Hrej & _).
    exists tm'. split; [exact Hadd|].
    apply Hrej. right. apply le_n.
  - destruct (Timer_addDelayedTask_queued_or_cancelled 1 0%Z 100%Z tm Ht
                (invariant_new 2)) as (tm' & Hadd & _ & Hok).
    exists tm'. split; [exact Hadd|].
    destruct Hok as (_ & Hm & _).
    { intros [Hq|Hlen]; [discriminate Hq|]. simpl in Hlen. lia. }
    exact Hm.
Defined.

(** X23.  The destructor of the timer stops the queue and cancels what is
    left in it: when every task in the queue waits, is done or is cancelled,
    the destructor returns, the queue is stopped with its entries in place,
    every task in it is cancelled, and the tasks that are not in the queue
    are as they were. *)
Theorem Timer_destructor_cancels_queued_tasks
    (self : ThreadId)
    (envs : TimerQueue.TaskPtr -> Guard.Env DelayedTask.World)
    (tm : Timer.Self) :
  (∀ task, task ∈ (TimerQueue._queue (Timer._queue tm)).*2 ->
           Timer.at_rest tm task) ->
  ∃ tm',
    Timer.Self_destroy self envs tm = Guard.Ret tt tm'
    ∧ Timer._queue tm' = (TimerQueue.stop (Timer._queue tm)).2
    ∧ (∀ task, task ∈ (TimerQueue._queue (Timer._queue tm)).*2 ->
               Timer.cancelled tm' task)
    ∧ (∀ other, other ∉ (TimerQueue._queue (Timer._queue tm)).*2 ->
                Timer.tasks tm' !! other = Timer.tasks tm !! other).
Proof.
  intros Hrest. unfold Timer.Self_destroy. simpl.
  set (tm1 := Timer.set_queue _ _).
  destruct (cancel_each_at_rest self envs
              (TimerQueue._queue (Timer._queue tm)).*2 tm1)
    as (tm' & Hrun & Hq & Hall & Hother); [done|].
  exists tm'. by rewrite Hrun.
Qed.

Lemma Timer_destructor_cancels_queued_tasks_witness :
  let delay := fun _ : TimerQueue.TaskPtr => 100%Z in
  let q := (TimerQueue.addTask delay 0%Z 0 (TimerQueue.Queue_new 4)).2 in
  let tm := Timer.mkSelf q {[ 0 := Timer.mkTask 100 DelayedTask.DelayedTask_new ]} 1 in
  (∀ task, task ∈ (TimerQueue._queue (Timer._queue tm)).*2 ->
           Timer.at_rest tm task)
  ∧ ∃ tm', Timer.Self_destroy 9 (fun _ => []) tm = Guard.Ret tt tm'
           ∧ Timer.cancelled tm' 0.
Proof.
  intros delay q tm.
  assert (Hrest : ∀ task, task ∈ (TimerQueue._queue (Timer._queue tm)).*2 ->
                          Timer.at_rest tm task).
  { intros task Hin. apply list_elem_of_singleton in Hin. subst task.
    eexists. split; [reflexivity|]. split; [apply allocated_new|]. by left. }
  split; [exact Hrest|].
  destruct (Timer_destructor_cancels_queued_tasks 9 (fun _ => []) tm Hrest)
    as (tm' & Hrun & _ & Hall & _).
  exists tm'. split; [exact Hrun|]. apply Hall.
  apply list_elem_of_singleton. reflexivity.
Defined.

(** X24.  What dropping a handle does: a task that waits or is done is
    cancelled, a cancelled task stays as it is, and for a task that ended in
    an exception the [cancel] in the destructor rethrows it, which
    terminates the process. *)
Theorem Handle_destroy_by_phase
    (self : ThreadId) (env : Guard.Env DelayedTask.World)
    (w : DelayedTask.World) (ph : DelayedTask.Phase) :
  DelayedTask.allocated w ->
  DelayedTask.phase w = Some ph ->
  match ph with
  | DelayedTask.StateWaiting | DelayedTask.StateDone =>
      ∃ w', Timer.Handle_destroy self env w = Timer.Released w'
            ∧ DelayedTask.phase w' = Some DelayedTask.StateCancelled
  | DelayedTask.StateCancelled =>
      Timer.Handle_destroy self env w = Timer.Released w
  | DelayedTask.StateException e =>
      Timer.Handle_destroy self env w = Timer.Terminated e w
  | DelayedTask.StateRunning executor _ =>
      self = executor ->
      ∃ w', Timer.Handle_destroy self env w = Timer.Released w'
            ∧ DelayedTask.phase w' = Some DelayedTask.StateCancelled
  end.
Proof.
  intros Ha Hp. unfold Timer.Handle_destroy.
  destruct ph as [|executor wanted| |e|].
  - destruct (cancel_waiting_or_done self env w _ Ha Hp (or_introl eq_refl))
      as (w' & -> & Hp' & _). by exists w'.
  - intros ->.
    destruct (cancel_running_executor executor wanted env w Ha Hp)
      as (w' & -> & Hp' & _). by exists w'.
  - destruct (cancel_waiting_or_done self env w _ Ha Hp (or_intror eq_refl))
      as (w' & -> & Hp' & _). by exists w'.
  - pose proof (ask_exception self (DelayedTask.mkTimerCalls None None)
                  (DelayedTask.QCancel env) w e Hp) as He.
    simpl in He. by rewrite He.
  - pose proof (ask_cancelled self (DelayedTask.mkTimerCalls None None)
                  (DelayedTask.QCancel env) w Hp) as He.
    simpl in He. by rewrite He.
Qed.

Lemma Handle_destroy_by_phase_witness :
  let w := {| State.state := 1;
              State.rest :=
                {| DelayedTask.objects := {[ 1 := DelayedTask.StateException 7 ]};
                   DelayedTask.brk := 2 |} |} in
  DelayedTask.allocated w
  ∧ DelayedTask.phase w = Some (DelayedTask.StateException 7)
  ∧ Timer.Handle_destroy 3 [] w = Timer.Terminated 7 w.
Proof.
  intros w.
  assert (Ha : DelayedTask.allocated w)
    by (unfold DelayedTask.allocated; simpl; lia).
  split; [exact Ha|]. split; [reflexivity|].
  apply (Handle_destroy_by_phase 3 [] w (DelayedTask.StateException 7)
           Ha eq_refl).
Defined.

(** X25.  The dispatcher hands a task it took from the queue to the pool: a
    running pool gets the closure at the back of its queue and the task is
    left alone; a pool that has been stopped takes nothing, and the task,
    if it waits, is cancelled. *)
Theorem Timer_dispatch_to_pool
    (self : ThreadId) (env : Guard.Env DelayedTask.World)
    (task : TimerQueue.TaskPtr) (pool : ThreadPool.TaskQueue)
    (tm : Timer.Self) :
  Timer.at_rest tm task ->
  (ThreadPool._quit pool = false ->
     Timer.dispatch self env task pool tm
       = Guard.Ret tt
           (tm, {| ThreadPool._quit := false;
                   ThreadPool._queue :=
                     ThreadPool._queue pool
                     ++ [Some (ThreadPool.mkCallable task ThreadPool.Returns)]
                |}))
  ∧ (ThreadPool._quit pool = true ->
     ∃ tm', Timer.dispatch self env task pool tm = Guard.Ret tt (tm', pool)
            ∧ Timer.cancelled tm' task
            ∧ Timer._queue tm' = Timer._queue tm).
Proof.
  intros Hrest. unfold Timer.dispatch. split.
  - intros Hq. by rewrite addTask_accepts by done.
  - intros Hq. rewrite addTask_rejects by auto.
    destruct (task_cancel_at_rest self env task tm Hrest)
      as (b & w' & -> & Ha' & Hp').
    destruct Hrest as (t & Ht & _).
    eexists. split; [reflexivity|]. split; [|done].
    eexists. split; [by apply set_state_lookup|]. by split.
Qed.

Lemma Timer_dispatch_to_pool_witness :
  let tm := Timer.mkSelf (TimerQueue.Queue_new 4)
              {[ 0 := Timer.mkTask 100 DelayedTask.DelayedTask_new ]} 1 in
  let pool := ThreadPool.mkTaskQueue true [] in
  Timer.at_rest tm 0
  ∧ ∃ tm', Timer.dispatch 9 [] 0 pool tm = Guard.Ret tt (tm', pool)
           ∧ Timer.cancelled tm' 0.
Proof.
  intros tm pool.
  assert (Hrest : Timer.at_rest tm 0).
  { eexists. split; [reflexivity|]. split; [apply allocated_new|]. by left. }
  split; [exact Hrest|].
  destruct (proj2 (Timer_dispatch_to_pool 9 [] 0 pool tm Hrest) eq_refl)
    as (tm' & Hd & Hc & _).
  exists tm'. split; [exact Hd | exact Hc].
Defined.

(* ===================================================================== *)
(** * Properties of [Once]                                                *)
(* ===================================================================== *)

Section OnceFacts.
Import Once.
Context {Object : Type}.
Implicit Types (o : Once Object) (how : How Object).

Lemma init_taken how o :
  _flags o ≠ EMPTY -> init how o = (inl false, o).
Proof.
  intros Hne. unfold init, compare_exchange_strong.
  destruct (Z.eqb_spec (_flags o) EMPTY); [done|]. done.
Qed.

Lemma init_empty how o :
  _flags o = EMPTY ->
  init how o =
    match (how (_object o)).2 with
    | Some e => (inr e, {| _flags := EMPTY; _object := (how (_object o)).1 |})
    | None => (inl true,
               {| _flags := HAS_VALUE; _object := (how (_object o)).1 |})
    end.
Proof.
  intros He. unfold init, compare_exchange_strong. rewrite He. simpl.
  by destruct (how (_object o)) as [stored [e|]].
Qed.

Lemma init_settled how o : settled o -> settled (init how o).2.
Proof.
  intros Hs. destruct (decide (_flags o = EMPTY)) as [He|Hne].
  - rewrite init_empty by done.
    destruct (how (_object o)).2; [by left|right; by left].
  - by rewrite init_taken.
Qed.

End OnceFacts.

(** X26.  A [Once] takes a value at most once.  When the first assignment
    to a new [Once] has stored [x], every later initialization, whatever it
    would do, returns [false] and changes nothing, and [get] returns a
    pointer to [x]. *)
Theorem Once_first_assignment_wins {Object : Type}
    (initial : option Object) (x : Object)
    (hows : list (Once.How Object)) (how : Once.How Object) (fuel : nat) :
  let o1 := (Once.assign x (Once.Once_new initial)).2 in
  let o2 := foldl (fun o h => (Once.init h o).2) o1 hows in
  (Once.assign x (Once.Once_new initial)).1 = inl true
  ∧ o2 = o1
  ∧ Once.init how o2 = (inl false, o2)
  ∧ Once.get (S fuel) o2 = Some (Once.Pointer x)
  ∧ Once.get (S fuel) (Once.Once_new initial) = Some Once.Nullptr.
Proof.
  intros o1 o2.
  assert (Ho1 : o1 = {| Once._flags := Once.HAS_VALUE;
                        Once._object := Some x |}) by reflexivity.
  assert (Htaken : ∀ h, Once.init h o1 = (inl false, o1)).
  { intros h. apply init_taken. by rewrite Ho1. }
  assert (Ho2 : o2 = o1).
  { unfold o2. induction hows as [|h hows IH] using rev_ind; [done|].
    rewrite foldl_app. simpl. rewrite IH. by rewrite Htaken. }
  rewrite Ho2. repeat split; try done.
Qed.

(** X27.  [disable] sets the flag [DISABLED] and nothing else: the storage
    and the result of [get] are as before, no initialization succeeds
    afterwards, and a second [disable] changes nothing.  On a [Once] that
    never got a value it returns the null pointer, for good. *)
Theorem Once_disable_forbids_initialization {Object : Type}
    (o : Once.Once Object) (how : Once.How Object) (fuel : nat) :
  Once.settled o ->
  ∃ r o',
    Once.disable (S fuel) o = Some (r, o')
    ∧ Once._flags o' = Z.lor (Once._flags o) Once.DISABLED
    ∧ Once._object o' = Once._object o
    ∧ Once.get (S fuel) o = Some r
    ∧ Once.init how o' = (inl false, o')
    ∧ Once.disable (S fuel) o' = Some (r, o')
    ∧ Once.settled o'
    ∧ (Once._flags o = Once.EMPTY -> r = Once.Nullptr).
Proof.
  intros Hs. destruct o as [flags object].
  unfold Once.settled in Hs. simpl in Hs.
  assert (Hinit : ∀ f, f ≠ Once.EMPTY ->
            Once.init how {| Once._flags := f; Once._object := object |}
            = (inl false, {| Once._flags := f; Once._object := object |})).
  { intros f Hf. by apply init_taken. }
  destruct Hs as [Hf|[Hf|[Hf|Hf]]]; rewrite Hf; clear Hf flags;
    destruct object as [x|];
    (eexists _, _; split; [reflexivity|]);
    (split; [reflexivity|]); (split; [reflexivity|]);
    (split; [reflexivity|]); (split; [by apply Hinit|]);
    (split; [reflexivity|]); (split; [|done]); unfold Once.settled; cbn;
    first [ by (right; right; left) | by (right; right; right) ].
Qed.

Lemma Once_disable_forbids_initialization_witness :
  let o := Once.Once_new (Object := nat) None in
  Once.settled o
  ∧ ∃ r o',
      Once.disable 1 o = Some (r, o')
      ∧ Once.init (fun _ => (Some 5, None)) o' = (inl false, o')
      ∧ r = Once.Nullptr.
Proof.
  intros o. assert (Hs : Once.settled o) by (by left).
  split; [exact Hs|].
  destruct (Once_disable_forbids_initialization o (fun _ => (Some 5, None)) 0 Hs)
    as (r & o' & Hd & _ & _ & _ & Hi & _ & _ & Hr).
  exists r, o'. split; [exact Hd|]. split; [exact Hi|]. apply Hr. reflexivity.
Defined.

(** X28.  An initialization that throws on an empty [Once] hands the
    exception on and leaves the [Once] empty, with whatever it left in the
    storage: [get] returns the null pointer and a later initialization can
    succeed.  An initialization that returns without having put a value
    into the optional storage marks the [Once] as having one all the same,
    and [get] then ends in [std::terminate]. *)
Theorem Once_failed_initialization {Object : Type}
    (o : Once.Once Object) (how how' : Once.How Object) (fuel : nat) :
  Once._flags o = Once.EMPTY ->
  (∀ e, (how (Once._object o)).2 = Some e ->
     let o' := {| Once._flags := Once.EMPTY;
                  Once._object := (how (Once._object o)).1 |} in
     Once.init how o = (inr e, o')
     ∧ Once.get (S fuel) o' = Some Once.Nullptr
     ∧ ((how' (Once._object o')).2 = None ->
        Once.init how' o'
          = (inl true, {| Once._flags := Once.HAS_VALUE;
                          Once._object := (how' (Once._object o')).1 |})))
  ∧ (how (Once._object o) = (None, None) ->
     Once.init how o
       = (inl true, {| Once._flags := Once.HAS_VALUE; Once._object := None |})
     ∧ Once.get (S fuel) (Once.init how o).2 = Some Once.Terminates).
Proof.
  intros He. split.
  - intros e Hthrow o'. rewrite (init_empty how o He), Hthrow.
    split; [done|]. split; [done|].
    intros Hok. rewrite (init_empty how' o' eq_refl). by rewrite Hok.
  - intros Hnone. rewrite (init_empty how o He), Hnone. done.
Qed.

Lemma Once_failed_initialization_witness :
  let o := Once.Once_new (Object := nat) None in
  let how := fun _ : option nat => (None, Some 3) in
  Once._flags o = Once.EMPTY
  ∧ Once.init how o = (inr 3, o)
  ∧ Once.get 1 o = Some Once.Nullptr.
Proof.
  intros o how. split; [reflexivity|].
  destruct (proj1 (Once_failed_initialization o how how 0 eq_refl) 3 eq_refl)
    as (Hi & Hg & _).
  split; [exact Hi | exact Hg].
Defined.
